(** * transfer2go: catalog, agent mesh and hashing utilities

    A shallow embedding of the Go sources of transfer2go
    (package [core]: the Trivial File Catalog; package [server]: agent
    registration; package [utils]: [Hash]) together with the properties
    the specification states about them.

    Go values are modelled as follows: [string] and [[]byte] as byte
    sequences ([string], [list byte]); [int], [int64] as [Z]; slices as
    the lists of their elements, and the slices [Records] and [Files]
    return as [go.slice], which keeps the nil slice apart from an empty
    one; [map[string]string] as [gmap string string]; [error] as
    [option string] ([None] is [nil]), the string being what [Error()]
    returns.  Package-level variables and the outside world (standard
    error, the database file, the network) are fields of an explicit
    state which every effectful function threads. *)

From Stdlib Require Import ZArith Lia List.
From Stdlib.Strings Require Import Ascii String Byte.
From stdpp Require Import base option list strings pretty gmap.

Local Open Scope string_scope.
Local Open Scope list_scope.

(** ** The Go runtime: process exit and state threading *)

Module go.

(** A call either returns a value or terminates the process
    ([log.Fatal] and [log.Fatalf] end with [os.Exit(1)]). *)
Inductive outcome (A : Type) : Type :=
| Return (a : A)
| Exit (code : Z).
Arguments Return {A} a.
Arguments Exit {A} code.

(** Effectful code over a state [S]: the state is returned in both
    cases, so what a terminated process leaves behind is observable. *)
Definition M (S A : Type) : Type := S → outcome A * S.

Definition ret {S A} (a : A) : M S A := λ s, (Return a, s).

Definition bind {S A B} (m : M S A) (k : A → M S B) : M S B :=
  λ s, match m s with
       | (Return a, s') => k a s'
       | (Exit c, s') => (Exit c, s')
       end.

Definition get {S} : M S S := λ s, (Return s, s).
Definition gets {S A} (f : S → A) : M S A := λ s, (Return (f s), s).
Definition modify {S} (f : S → S) : M S unit := λ s, (Return tt, f s).
Definition exit {S A} (code : Z) : M S A := λ s, (Exit code, s).

(** [for _, x := range xs { body }] over a slice. *)
Fixpoint for_range {S A} (xs : list A) (body : A → M S unit) : M S unit :=
  match xs with
  | [] => ret tt
  | x :: xs' => bind (body x) (λ _, for_range xs' body)
  end.

(** A loop that updates a local variable [acc] on every iteration. *)
Fixpoint for_fold {S A B} (xs : list A) (acc : B) (body : B → A → M S B) : M S B :=
  match xs with
  | [] => ret acc
  | x :: xs' => bind (body acc x) (λ acc', for_fold xs' acc' body)
  end.

(** [error]: [nil] or a value with a message. *)
Definition error : Type := option string.
Definition nil : error := None.

(** A slice as its holder sees it: the nil slice ([var out []T]), or a
    slice that is not nil with its elements ([[]T{}] has none).  Both
    [NilSlice] and [Slice []] have length 0; [out == nil] tells them
    apart. *)
Inductive slice (A : Type) : Type :=
| NilSlice
| Slice (l : list A).
Arguments NilSlice {A}.
Arguments Slice {A} l.

(** The elements [for _, x := range s] walks. *)
Definition elems {A} (s : slice A) : list A :=
  match s with
  | NilSlice => []
  | Slice l => l
  end.

(** [len(s)]. *)
Definition len {A} (s : slice A) : nat := length (elems s).

(** [s == nil]. *)
Definition is_nil {A} (s : slice A) : bool :=
  match s with
  | NilSlice => true
  | Slice _ => false
  end.

(** [append(s, x)]: never the nil slice. *)
Definition append {A} (s : slice A) (x : A) : slice A :=
  Slice (elems s ++ [x]).

(** [var out []T; for _, x := range l { out = append(out, x) }]. *)
Definition appended {A} (l : list A) : slice A :=
  fold_left append l NilSlice.

(** [strings.Contains(s, substr)]. *)
Fixpoint strings_Contains (s substr : string) : bool :=
  String.prefix substr s ||
  match s with
  | EmptyString => false
  | String _ s' => strings_Contains s' substr
  end.

(** [strings.Join(elems, sep)]. *)
Fixpoint strings_Join (elems : list string) (sep : string) : string :=
  match elems with
  | [] => ""
  | [e] => e
  | e :: rest => e +:+ sep +:+ strings_Join rest sep
  end.

(** [strings.Split(s, sep)] for a non-empty separator; [skip] counts
    the bytes of a separator still to be dropped, [cur] is the piece
    being collected. *)
Fixpoint split_from (sep s : string) (skip : nat) (cur : string) : list string :=
  match s with
  | EmptyString => [cur]
  | String c s' =>
      match skip with
      | S k => split_from sep s' k cur
      | O =>
          if String.prefix sep s
          then cur :: split_from sep s' (String.length sep - 1) ""
          else split_from sep s' 0 (cur +:+ String c "")
      end
  end.

Definition strings_Split (s sep : string) : list string :=
  split_from sep s 0 "".

(** The rest of [s] after the prefix [p], if [s] starts with [p]. *)
Fixpoint strip_prefix (p s : string) : option string :=
  match p, s with
  | EmptyString, _ => Some s
  | String a p', String b s' =>
      if Ascii.eqb a b then strip_prefix p' s' else None
  | String _ _, EmptyString => None
  end.

End go.

#[global] Instance go_M_ret {S} : MRet (go.M S) := λ A, go.ret.
#[global] Instance go_M_bind {S} : MBind (go.M S) := λ A B k m, go.bind m k.

(** ** Package utils *)

Module utils.

Local Open Scope Z_scope.

Definition byte_to_Z (b : byte) : Z := Z.of_N (Byte.to_N b).

Definition byte_of_Z (z : Z) : byte :=
  match Byte.of_N (Z.to_N (z mod 256)) with
  | Some b => b
  | None => x00
  end.

(** *** crypto/sha256: SHA-256 as specified in FIPS 180-4, on 32-bit
    words held in [Z] with the wrap-around written out. *)
Module sha256.

Definition Size : Z := 32.

Definition u32 (x : Z) : Z := x mod 2 ^ 32.
Definition add32 (x y : Z) : Z := u32 (x + y).
Definition rotr (x n : Z) : Z :=
  Z.lor (Z.shiftr x n) (u32 (Z.shiftl x (32 - n))).
Definition not32 (x : Z) : Z := Z.lxor x 0xffffffff.

Definition Ch (x y z : Z) : Z :=
  Z.lxor (Z.land x y) (Z.land (not32 x) z).
Definition Maj (x y z : Z) : Z :=
  Z.lxor (Z.lxor (Z.land x y) (Z.land x z)) (Z.land y z).
Definition bigSigma0 (x : Z) : Z :=
  Z.lxor (Z.lxor (rotr x 2) (rotr x 13)) (rotr x 22).
Definition bigSigma1 (x : Z) : Z :=
  Z.lxor (Z.lxor (rotr x 6) (rotr x 11)) (rotr x 25).
Definition smallSigma0 (x : Z) : Z :=
  Z.lxor (Z.lxor (rotr x 7) (rotr x 18)) (Z.shiftr x 3).
Definition smallSigma1 (x : Z) : Z :=
  Z.lxor (Z.lxor (rotr x 17) (rotr x 19)) (Z.shiftr x 10).

(** The round constants, four to a line. *)
Definition K : list Z :=
  concat [
    [0x428a2f98; 0x71374491; 0xb5c0fbcf; 0xe9b5dba5];
    [0x3956c25b; 0x59f111f1; 0x923f82a4; 0xab1c5ed5];
    [0xd807aa98; 0x12835b01; 0x243185be; 0x550c7dc3];
    [0x72be5d74; 0x80deb1fe; 0x9bdc06a7; 0xc19bf174];
    [0xe49b69c1; 0xefbe4786; 0x0fc19dc6; 0x240ca1cc];
    [0x2de92c6f; 0x4a7484aa; 0x5cb0a9dc; 0x76f988da];
    [0x983e5152; 0xa831c66d; 0xb00327c8; 0xbf597fc7];
    [0xc6e00bf3; 0xd5a79147; 0x06ca6351; 0x14292967];
    [0x27b70a85; 0x2e1b2138; 0x4d2c6dfc; 0x53380d13];
    [0x650a7354; 0x766a0abb; 0x81c2c92e; 0x92722c85];
    [0xa2bfe8a1; 0xa81a664b; 0xc24b8b70; 0xc76c51a3];
    [0xd192e819; 0xd6990624; 0xf40e3585; 0x106aa070];
    [0x19a4c116; 0x1e376c08; 0x2748774c; 0x34b0bcb5];
    [0x391c0cb3; 0x4ed8aa4a; 0x5b9cca4f; 0x682e6ff3];
    [0x748f82ee; 0x78a5636f; 0x84c87814; 0x8cc70208];
    [0x90befffa; 0xa4506ceb; 0xbef9a3f7; 0xc67178f2] ].

(** The eight working variables a..h, also the chaining value. *)
Record regs : Type := Regs {
  ra : Z; rb : Z; rc : Z; rd : Z; re : Z; rf : Z; rg : Z; rh : Z }.

Definition init : regs :=
  Regs 0x6a09e667 0xbb67ae85 0x3c6ef372 0xa54ff53a
       0x510e527f 0x9b05688c 0x1f83d9ab 0x5be0cd19.

(** Message padding: a 1 bit, zero bits up to 448 mod 512, then the
    bit length as a 64-bit big-endian integer. *)
Definition be_bytes (n : nat) (x : Z) : list Z :=
  map (λ i : nat, Z.shiftr x (8 * Z.of_nat i) mod 256) (rev (seq 0 n)).

Definition pad (msg : list Z) : list Z :=
  let len := Z.of_nat (length msg) in
  msg ++ [0x80] ++ repeat 0 (Z.to_nat ((55 - len) mod 64))
      ++ be_bytes 8 ((8 * len) mod 2 ^ 64).

(** Big-endian 32-bit words of a byte sequence. *)
Fixpoint words (bs : list Z) : list Z :=
  match bs with
  | b0 :: b1 :: b2 :: b3 :: rest =>
      (Z.shiftl b0 24 + Z.shiftl b1 16 + Z.shiftl b2 8 + b3) :: words rest
  | _ => []
  end.

(** The message schedule: sixteen block words extended to sixty-four. *)
Fixpoint extend (n : nat) (w : list Z) : list Z :=
  match n with
  | O => w
  | S n' =>
      let t := length w in
      let at_ (k : nat) := nth (t - k) w 0 in
      extend n' (w ++ [add32 (add32 (smallSigma1 (at_ 2%nat)) (at_ 7%nat))
                             (add32 (smallSigma0 (at_ 15%nat)) (at_ 16%nat))])
  end.

Definition round (r : regs) (kw : Z * Z) : regs :=
  let t1 := add32 (add32 (add32 (rh r) (bigSigma1 (re r)))
                         (add32 (Ch (re r) (rf r) (rg r)) (fst kw)))
                  (snd kw) in
  let t2 := add32 (bigSigma0 (ra r)) (Maj (ra r) (rb r) (rc r)) in
  Regs (add32 t1 t2) (ra r) (rb r) (rc r)
       (add32 (rd r) t1) (re r) (rf r) (rg r).

Definition block (h : regs) (w16 : list Z) : regs :=
  let r := fold_left round (combine K (extend 48 w16)) h in
  Regs (add32 (ra h) (ra r)) (add32 (rb h) (rb r))
       (add32 (rc h) (rc r)) (add32 (rd h) (rd r))
       (add32 (re h) (re r)) (add32 (rf h) (rf r))
       (add32 (rg h) (rg r)) (add32 (rh h) (rh r)).

(** Consume the padded message sixteen words at a time. *)
Fixpoint blocks (n : nat) (h : regs) (ws : list Z) : regs :=
  match n with
  | O => h
  | S n' =>
      match ws with
      | [] => h
      | _ => blocks n' (block h (firstn 16 ws)) (skipn 16 ws)
      end
  end.

Definition regs_bytes (r : regs) : list Z :=
  flat_map (be_bytes 4)
    [ra r; rb r; rc r; rd r; re r; rf r; rg r; rh r].

(** [sha256.Sum256(data)]. *)
Definition Sum256 (data : list byte) : list byte :=
  let ws := words (pad (map byte_to_Z data)) in
  map byte_of_Z (regs_bytes (blocks (length ws) init ws)).

(** A [hash.Hash] as its interface documents it: [Write] adds data to
    the running hash and never returns an error, [Sum] appends the
    hash of everything written so far to its argument and leaves the
    state as it is. *)
Record digest : Type := { written : list byte }.

Definition New : digest := {| written := [] |}.

Definition Write (d : digest) (p : list byte) : digest * (Z * go.error) :=
  ({| written := written d ++ p |}, (Z.of_nat (length p), go.nil)).

Definition Sum (d : digest) (b : list byte) : list byte :=
  b ++ Sum256 (written d).

End sha256.

(** *** encoding/hex *)
Module hex.

Definition hextable : string := "0123456789abcdef".

Definition digit (v : Z) : ascii :=
  match String.get (Z.to_nat v) hextable with
  | Some c => c
  | None => "0"%char
  end.

(** [hex.EncodeToString(src)]: two digits per byte,
    [hextable[v>>4]] then [hextable[v&0x0f]]. *)
Fixpoint EncodeToString (src : list byte) : string :=
  match src with
  | [] => EmptyString
  | v :: rest =>
      String (digit (Z.shiftr (byte_to_Z v) 4))
        (String (digit (Z.land (byte_to_Z v) 0x0f)) (EncodeToString rest))
  end.

(** [fromHexChar] and [hex.DecodeString], the inverse direction. *)
Definition fromHexChar (c : ascii) : option Z :=
  let n := Z.of_N (N_of_ascii c) in
  if (48 <=? n) && (n <=? 57) then Some (n - 48)
  else if (97 <=? n) && (n <=? 102) then Some (n - 97 + 10)
  else if (65 <=? n) && (n <=? 70) then Some (n - 65 + 10)
  else None.

Fixpoint DecodeString (s : string) : option (list byte) :=
  match s with
  | EmptyString => Some []
  | String c1 (String c2 rest) =>
      a ← fromHexChar c1;
      b ← fromHexChar c2;
      bs ← DecodeString rest;
      Some (byte_of_Z (Z.lor (Z.shiftl a 4) b) :: bs)
  | String _ EmptyString => None
  end.

End hex.

(** [int64(b)] for [b] of type [int]: both are at most 64 bits wide and
    signed, so the conversion keeps the value. *)
Definition int64_of_int (b : Z) : Z := b.

(** [func Hash(data []byte) (string, int64)].  The error of
    [hasher.Write] is only logged; the pair returned does not depend on
    it. *)
Definition Hash (data : list byte) : string * Z :=
  let hasher := sha256.New in
  let '(hasher, (b, e)) := sha256.Write hasher data in
  (hex.EncodeToString (sha256.Sum hasher []), int64_of_int b).

(** The result of [utils.FetchResponse(url, data)].  Its declaration is
    in a file of the repository that is not embedded here; these are
    the fields [register] and [registerAtAgents] read. *)
Record ResponseType : Type := {
  Status : string;          (* e.g. "200 OK" *)
  StatusCode : Z;
  Data : string;            (* []byte: the body *)
  Error : go.error }.

(** [int] arithmetic: 64-bit two's complement, an overflow wraps. *)
Definition int_wrap (x : Z) : Z := (x + 2 ^ 63) mod 2 ^ 64 - 2 ^ 63.

(** [func FindInList(a string, arr []string) bool]: the loop returns at
    the first element equal to [a]. *)
Fixpoint FindInList (a : string) (arr : list string) : bool :=
  match arr with
  | [] => false
  | e :: rest => if String.eqb e a then true else FindInList a rest
  end.

(** [func InList(a string, list []string) bool]: the loop counts the
    elements equal to [a] in the [int] variable [check]. *)
Definition InList (a : string) (list : list string) : bool :=
  let check :=
    fold_left (λ check b, if String.eqb b a then int_wrap (check + 1)
                          else check) list 0 in
  if negb (check =? 0) then true else false.

(** [func List2Set(arr []string) []string]. *)
Definition List2Set (arr : list string) : list string :=
  fold_left (λ out key, if negb (InList key out) then out ++ [key] else out)
            arr [].

(** [func MapKeys(rec map[string]interface{}) []string]; [range] is the
    order in which the runtime walks the map. *)
Definition MapKeys {V : Type} (range : gmap string V → list (string * V))
    (rec : gmap string V) : list string :=
  fold_left (λ keys kv, keys ++ [kv.1]) (range rec) [].

End utils.

(** ** Package core: the Trivial File Catalog *)

Module core.

Import go.
Local Open Scope Z_scope.

(** *** Data types *)

(** [type CatalogEntry struct]. *)
Record CatalogEntry : Type := {
  Lfn : string;      (* logical file name *)
  Pfn : string;      (* physical file name *)
  Dataset : string;
  Block : string;
  Bytes : Z;         (* int64 *)
  Hash : string }.

(** Modelled from the spec: the declaration of [TransferRequest] is in a
    file of the repository that is not embedded here; as a catalog filter
    it is "{Dataset, Block, File - any subset may be empty, meaning
    unconstrained}". *)
Module TransferRequest.
Record t : Type := { File : string; Block : string; Dataset : string }.
End TransferRequest.

(** *** The database behind [DB]

    The SQL templates and the schema they run against are read from
    [STATICDIR/sql/<dbtype>] at start-up; these files are not embedded
    here, and what follows stands for them. *)

(** Arguments and columns of a statement ([interface{}] values). *)
Inductive value : Type :=
| VString (s : string)
| VInt (i : Z).

#[global] Instance value_eq_dec : EqDecision value.
Proof. solve_decision. Defined.

Record file_row : Type := {
  f_id : Z; f_lfn : string; f_pfn : string;
  f_blockid : Z; f_datasetid : Z; f_bytes : Z; f_hash : string }.

(** Modelled from the spec: the schema is "Dataset table, Block table,
    File table with foreign keys to both"; datasets and blocks are
    "implicit hierarchy rows, each with a surrogate identity, referenced
    by name", and rows are pairs (id, name). *)
Record tables : Type := {
  DATASETS : list (Z * string);
  BLOCKS : list (Z * string);
  FILES : list file_row }.

Definition ids (t : list (Z * string)) : list Z := map fst t.
Definition names (t : list (Z * string)) : list string := map snd t.

(** Modelled from the spec: the "surrogate identity" given to a new
    row, one more than the largest in use. *)
Definition next_id (used : list Z) : Z := foldr Z.max 0 used + 1.

Definition file_key (f : file_row) : string * Z * Z :=
  (f_lfn f, f_blockid f, f_datasetid f).

(** The names of the templates [LoadSQL] finds, one per file. *)
Inductive template : Type :=
| insert_datasets | id_datasets
| insert_blocks | id_blocks
| insert_files | files_blocks_datasets.

#[global] Instance template_eq_dec : EqDecision template.
Proof. solve_decision. Defined.

(** A statement is the text of a template followed by whatever the
    code appended to it. *)
Record statement : Type := { tmpl : template; tail : string }.

Definition append_sql (stm : statement) (s : string) : statement :=
  {| tmpl := tmpl stm; tail := tail stm +:+ s |}.

(** Modelled from the spec: the content of [DBSQL] after [LoadSQL], one
    statement under the name of each template file. *)
Definition loaded_sql : gmap string statement :=
  list_to_map
    [ ("insert_datasets", {| tmpl := insert_datasets; tail := "" |});
      ("id_datasets", {| tmpl := id_datasets; tail := "" |});
      ("insert_blocks", {| tmpl := insert_blocks; tail := "" |});
      ("id_blocks", {| tmpl := id_blocks; tail := "" |});
      ("insert_files", {| tmpl := insert_files; tail := "" |});
      ("files_blocks_datasets",
        {| tmpl := files_blocks_datasets; tail := "" |}) ].

(** Modelled from the spec: what the insert templates do.  Dataset and
    block names are unique ("if the insert fails due to a uniqueness
    conflict ... the row already exists"), and a file is unique per
    block and dataset ("(Lfn) is unique per (Dataset, Block)"); the file
    insert takes lfn, pfn, block id, dataset id, bytes and hash in the
    order [Add] passes them.  A conflict leaves the table as it is. *)
Definition exec_statement (stm : statement) (args : list value)
    (t : tables) : error * tables :=
  match tmpl stm, tail stm, args with
  | insert_datasets, EmptyString, [VString name] =>
      if bool_decide (name ∈ names (DATASETS t))
      then (Some "UNIQUE constraint failed: DATASETS.DATASET", t)
      else (nil,
            {| DATASETS := DATASETS t ++ [(next_id (ids (DATASETS t)), name)];
               BLOCKS := BLOCKS t; FILES := FILES t |})
  | insert_blocks, EmptyString, [VString name] =>
      if bool_decide (name ∈ names (BLOCKS t))
      then (Some "UNIQUE constraint failed: BLOCKS.BLOCK", t)
      else (nil,
            {| DATASETS := DATASETS t;
               BLOCKS := BLOCKS t ++ [(next_id (ids (BLOCKS t)), name)];
               FILES := FILES t |})
  | insert_files, EmptyString,
    [VString lfn; VString pfn; VInt bid; VInt did; VInt bytes; VString hash] =>
      if bool_decide ((lfn, bid, did) ∈ map file_key (FILES t))
      then (Some "UNIQUE constraint failed: FILES.LFN, FILES.BLOCKID, FILES.DATASETID", t)
      else (nil,
            {| DATASETS := DATASETS t; BLOCKS := BLOCKS t;
               FILES := FILES t ++
                 [{| f_id := next_id (map f_id (FILES t));
                     f_lfn := lfn; f_pfn := pfn;
                     f_blockid := bid; f_datasetid := did;
                     f_bytes := bytes; f_hash := hash |}] |})
  | _, _, _ => (Some "SQL logic error", t)
  end.

(** Modelled from the spec: the query "joining File→Block→Dataset";
    its columns are dataset, block, lfn, pfn, bytes, hash, the order in
    which [Records] scans them. *)
Definition joined (t : tables) : list (list value) :=
  f ← FILES t;
  b ← filter (λ b, b.1 = f_blockid f) (BLOCKS t);
  d ← filter (λ d, d.1 = f_datasetid f) (DATASETS t);
  [[VString d.2; VString b.2; VString (f_lfn f); VString (f_pfn f);
    VInt (f_bytes f); VString (f_hash f)]].

(** Modelled from the spec: the query takes "zero or more equality
    predicates conjoined by AND", whose placeholders are "positional,
    named with a colon prefix, or $name-style", that is [?], [:name] or
    [$name].  [parse_predicate] gives the column of the join a predicate
    [COLUMN=placeholder] constrains. *)
Definition is_placeholder (ph : string) : bool :=
  match ph with
  | String "?" EmptyString => true
  | String ":" (String _ _) => true
  | String "$" (String _ _) => true
  | _ => false
  end.

Definition parse_predicate (c : string) : option nat :=
  let known (col : string) (i : nat) :=
    match strip_prefix col c with
    | Some ph => if is_placeholder ph then Some i else None
    | None => None
    end in
  known "D.DATASET=" 0%nat ∪ known "B.BLOCK=" 1%nat ∪ known "F.LFN=" 2%nat.

Definition parse_where (tail : string) : option (list nat) :=
  match tail with
  | EmptyString => Some []
  | _ =>
      match strip_prefix " WHERE " tail with
      | Some body => mapM parse_predicate (strings_Split body " AND ")
      | None => None
      end
  end.

(** A row satisfies the conjunction when each constrained column equals
    the argument bound to its placeholder; arguments are bound in the
    order the placeholders appear. *)
Definition satisfies (cols : list nat) (args : list value)
    (row : list value) : bool :=
  forallb (λ ca : nat * value, bool_decide (row !! ca.1 = Some ca.2))
          (combine cols args).

(** Modelled from the spec: what the query templates return.  The id
    templates "look up the Dataset's surrogate id by name" (and the
    block's); the join takes the predicates appended to it. *)
Definition query_statement (stm : statement) (args : list value)
    (t : tables) : list (list value) * error :=
  match tmpl stm, tail stm, args with
  | id_datasets, EmptyString, [VString name] =>
      (map (λ d, [VInt d.1]) (filter (λ d, d.2 = name) (DATASETS t)), nil)
  | id_blocks, EmptyString, [VString name] =>
      (map (λ b, [VInt b.1]) (filter (λ b, b.2 = name) (BLOCKS t)), nil)
  | files_blocks_datasets, tail, args =>
      match parse_where tail with
      | Some cols =>
          if bool_decide (length cols = length args)
          then (filter (λ row, satisfies cols args row = true) (joined t), nil)
          else ([], Some "sql: wrong number of arguments")
      | None => ([], Some "syntax error")
      end
  | _, _, _ => ([], Some "SQL logic error")
  end.

(** *** Package state and the outside world *)

(** What is handed to [log.Println] and [log.Printf]; a string that is
    only built to be logged is kept as its format and arguments. *)
#[local] Unset Elimination Schemes.
Inductive logarg : Type :=
| LString (s : string)
| LInt (i : Z)
| LError (e : error)
| LStatement (stm : statement)
| LValues (vals : list value)
| LSprintf (format : string) (args : list logarg).
#[local] Set Elimination Schemes.

Inductive logline : Type :=
| Println (args : list logarg)
| Printf (format : string) (args : list logarg)
| Print (args : list logarg).

Record state : Type := {
  DB : tables;                      (* what the database holds, durably *)
  DBTYPE : string;
  DBSQL : gmap string statement;
  VERBOSE : Z;                      (* utils.VERBOSE *)
  driver : list error;              (* failures the driver will report on
                                       its next calls, one entry per call;
                                       [nil] or no entry: the call runs *)
  stderr : list logline }.

Definition set_DB (t : tables) (s : state) : state :=
  {| DB := t; DBTYPE := DBTYPE s; DBSQL := DBSQL s; VERBOSE := VERBOSE s;
     driver := driver s; stderr := stderr s |}.
Definition set_driver (d : list error) (s : state) : state :=
  {| DB := DB s; DBTYPE := DBTYPE s; DBSQL := DBSQL s; VERBOSE := VERBOSE s;
     driver := d; stderr := stderr s |}.
Definition set_stderr (l : list logline) (s : state) : state :=
  {| DB := DB s; DBTYPE := DBTYPE s; DBSQL := DBSQL s; VERBOSE := VERBOSE s;
     driver := driver s; stderr := l |}.

Definition log_Println (args : list logarg) : M state unit :=
  modify (λ s, set_stderr (stderr s ++ [Println args]) s).
Definition log_Printf (format : string) (args : list logarg) : M state unit :=
  modify (λ s, set_stderr (stderr s ++ [Printf format args]) s).
(** [log.Fatal] is [Print] and [log.Fatalf] is [Printf], each followed
    by [os.Exit(1)]. *)
Definition log_Fatal {A} (args : list logarg) : M state A :=
  modify (λ s, set_stderr (stderr s ++ [Print args]) s);; exit 1.
Definition log_Fatalf {A} (format : string) (args : list logarg) : M state A :=
  log_Printf format args;; exit 1.

(** *** database/sql *)

(** Every call into the driver may fail for reasons outside the
    program (a locked or unreachable database, a full disk). *)
Definition driver_call : M state error :=
  λ s, match driver s with
       | [] => (Return nil, s)
       | f :: rest => (Return f, set_driver rest s)
       end.

(** A transaction holds the statements executed through it until it is
    committed. *)
Record Tx : Type := { pending : list (statement * list value) }.

(** [DB.Begin()]. *)
Definition DB_Begin : M state (Tx * error) :=
  e ← driver_call; mret ({| pending := [] |}, e).

(** [tx.Exec(stm, args...)]: part of the transaction [tx]. *)
Definition Tx_Exec (tx : Tx) (stm : statement) (args : list value)
    : M state (Tx * error) :=
  e ← driver_call;
  match e with
  | Some _ => mret (tx, e)
  | None => mret ({| pending := pending tx ++ [(stm, args)] |}, nil)
  end.

(** [tx.Commit()]. *)
Definition Tx_Commit (tx : Tx) : M state error :=
  e ← driver_call;
  match e with
  | Some _ => mret e
  | None =>
      modify (λ s, set_DB (fold_left (λ t sa, (exec_statement sa.1 sa.2 t).2)
                                     (pending tx) (DB s)) s);;
      mret nil
  end.

(** [DB.Exec(stm, args...)]: runs on a connection of its own, outside
    any transaction, and its effect is durable when it returns.  The
    [sql.Result] is left out, no caller looks at it. *)
Definition DB_Exec (stm : statement) (args : list value) : M state error :=
  f ← driver_call;
  match f with
  | Some _ => mret f
  | None =>
      t ← gets DB;
      let '(e, t') := exec_statement stm args t in
      modify (set_DB t');;
      mret e
  end.

(** [DB.Query(stm, args...)]. *)
Definition DB_Query (stm : statement) (args : list value)
    : M state (list (list value) * error) :=
  f ← driver_call;
  match f with
  | Some _ => mret ([], f)
  | None => t ← gets DB; mret (query_statement stm args t)
  end.

(** The decimal digits of [strconv.ParseInt(s, 10, 64)]. *)
Fixpoint parse_digits (s : string) (acc : Z) : option Z :=
  match s with
  | EmptyString => Some acc
  | String c s' =>
      let n := Z.of_N (N_of_ascii c) in
      if (48 <=? n) && (n <=? 57)
      then parse_digits s' (10 * acc + (n - 48))
      else None
  end.

(** [strconv.ParseInt(s, 10, 64)]: an optional sign, at least one
    digit, nothing else, and a value that fits 64 bits; [None] stands
    for its syntax and range errors. *)
Definition ParseInt (s : string) : option Z :=
  let '(neg, digits) :=
    match s with
    | String "+" s' => (false, s')
    | String "-" s' => (true, s')
    | _ => (false, s)
    end in
  match digits with
  | EmptyString => None
  | _ =>
      match parse_digits digits 0 with
      | Some un =>
          if neg
          then (if un <=? 2 ^ 63 then Some (- un) else None)
          else (if un <? 2 ^ 63 then Some un else None)
      | None => None
      end
  end.

(** What [rows.Scan] stores in a [string] destination: a string as it
    is, an integer in decimal.  This conversion does not fail. *)
Definition asString (src : value) : string :=
  match src with
  | VString s => s
  | VInt i => pretty i
  end.

(** What [rows.Scan] stores in an [int] or [int64] destination: an
    integer as it is, a string through [strconv.ParseInt]. *)
Definition asInt (src : value) : option Z :=
  match src with
  | VInt i => Some i
  | VString s => ParseInt s
  end.

(** [rows.Scan(&id)] into an [int].  The destination keeps its value
    when the row has another number of columns than one, or when the
    conversion fails.  The messages leave out the name of the column,
    which is the template's. *)
Definition Scan_int (row : list value) (dest : Z) : Z * error :=
  match row with
  | [v] =>
      match asInt v with
      | Some i => (i, nil)
      | None => (dest, Some "sql: Scan error on column index 0")
      end
  | _ => (dest, Some ("sql: expected " +:+ pretty (length row) +:+
                      " destination arguments in Scan, not 1"))
  end.

(** [rows.Scan(&rec.Dataset, &rec.Block, &rec.Lfn, &rec.Pfn, &rec.Bytes,
    &rec.Hash)].  With another number of columns than six nothing is
    stored.  Otherwise the destinations are filled in the order of the
    call up to the first conversion that fails, which can only be that
    of [Bytes], the one destination that is not a string. *)
Definition Scan_entry (row : list value) (rec : CatalogEntry)
    : CatalogEntry * error :=
  match row with
  | [d; b; l; p; n; h] =>
      match asInt n with
      | Some i =>
          ({| Lfn := asString l; Pfn := asString p; Dataset := asString d;
              Block := asString b; Bytes := i; Hash := asString h |}, nil)
      | None =>
          ({| Lfn := asString l; Pfn := asString p; Dataset := asString d;
              Block := asString b; Bytes := Bytes rec; Hash := Hash rec |},
           Some "sql: Scan error on column index 4")
      end
  | _ => (rec, Some ("sql: expected " +:+ pretty (length row) +:+
                     " destination arguments in Scan, not 6"))
  end.

(** *** The functions of catalog.go *)

(** [func check(msg string, err error)]. *)
Definition check (msg : logarg) (err : error) : M state unit :=
  match err with
  | Some _ => log_Fatalf "ERROR %s, %v\n" [msg; LError err]
  | None => mret tt
  end.

(** [func getSQL(key string) string]. *)
Definition getSQL (key : string) : M state statement :=
  dbsql ← gets DBSQL;
  match dbsql !! key with
  | Some stm => mret stm
  | None => log_Fatal [LSprintf "Unable to load %s SQL" [LString key]]
  end.

(** [func placeholder(pholder string) string]; the package variable
    [DBTYPE] it reads is its first argument here. *)
Definition placeholder (DBTYPE : string) (pholder : string) : string :=
  if String.eqb DBTYPE "ora" || String.eqb DBTYPE "oci8"
  then ":" +:+ pholder
  else if String.eqb DBTYPE "PostgreSQL"
  then "$" +:+ pholder
  else "?".

(** [func (c *CatalogEntry) String() string], which is only logged. *)
Definition CatalogEntry_String (c : CatalogEntry) : logarg :=
  LSprintf "<CatalogEntry: dataset=%s block=%s lfn=%s pfn=%s bytes=%d hash=%s>"
    [LString (Dataset c); LString (Block c); LString (Lfn c);
     LString (Pfn c); LInt (Bytes c); LString (Hash c)].

(** [type Catalog struct]. *)
Record Catalog : Type := {
  Type_ : string; Uri : string; Login : string; Password : string;
  Owner : string }.

(** An insert whose failure is looked at the way [Add] does for
    datasets and blocks: [if e != nil { if !strings.Contains(e.Error(),
    "UNIQUE") { check(msg, e) } }]. *)
Definition unless_unique (e : error) (msg : logarg) (err : error)
    : M state unit :=
  match e with
  | Some text =>
      if negb (strings_Contains text "UNIQUE") then check msg err
      else mret tt
  | None => mret tt
  end.

(** [func (c *Catalog) Add(entry CatalogEntry) error]. *)
Definition Add (c : Catalog) (entry : CatalogEntry) : M state error :=
  '(tx, e) ← DB_Begin;
  check (LString "Unable to setup transaction") e;;
  let did := 0 in
  let bid := 0 in
  (* insert dataset into dataset tables *)
  stm ← getSQL "insert_datasets";
  e ← DB_Exec stm [VString (Dataset entry)];
  unless_unique e (LString "Unable to insert into datasets table") e;;
  (* get dataset id *)
  stm ← getSQL "id_datasets";
  '(rows, err) ← DB_Query stm [VString (Dataset entry)];
  check (LString "Unable to perform DB.Query over datasets table") err;;
  did ← for_fold rows did (λ did row,
           let '(did, err) := Scan_int row did in
           check (LString "Unable to scan rows for datasetid") err;;
           mret did);
  (* insert block into block table *)
  stm ← getSQL "insert_blocks";
  e ← DB_Exec stm [VString (Block entry)];
  unless_unique e (LString "Unable to insert into blocks table") e;;
  (* get block id *)
  stm ← getSQL "id_blocks";
  '(rows, err) ← DB_Query stm [VString (Block entry)];
  check (LString "Unable to DB.Query over blocks table") err;;
  bid ← for_fold rows bid (λ bid row,
           let '(bid, err) := Scan_int row bid in
           check (LString "Unable to scan rows for datasetid") err;;
           mret bid);
  (* insert entry into files table: the result goes to [err], the test
     is on [e], which still holds the result of the block insert *)
  stm ← getSQL "insert_files";
  err ← DB_Exec stm [VString (Lfn entry); VString (Pfn entry); VInt bid;
                     VInt did; VInt (Bytes entry); VString (Hash entry)];
  unless_unique e (LSprintf "Unable to DB.Exec(%s)" [LStatement stm]) err;;
  _ ← Tx_Commit tx;
  verbose ← gets VERBOSE;
  (if 0 <? verbose
   then log_Println [LString "Committed to Catalog";
                     CatalogEntry_String entry;
                     LString "datasetid"; LInt did;
                     LString "blockid"; LInt bid]
   else mret tt);;
  mret nil.

(** [func (c *Catalog) Records(req TransferRequest) []CatalogEntry]. *)
Definition Records (c : Catalog) (req : TransferRequest.t)
    : M state (slice CatalogEntry) :=
  stm ← getSQL "files_blocks_datasets";
  dbtype ← gets DBTYPE;
  let cond : list string := [] in
  let vals : list value := [] in
  let '(cond, vals) :=
    if negb (String.eqb (TransferRequest.File req) "")
    then (cond ++ ["F.LFN=" +:+ placeholder dbtype "lfn"],
          vals ++ [VString (TransferRequest.File req)])
    else (cond, vals) in
  let '(cond, vals) :=
    if negb (String.eqb (TransferRequest.Block req) "")
    then (cond ++ ["B.BLOCK=" +:+ placeholder dbtype "block"],
          vals ++ [VString (TransferRequest.Block req)])
    else (cond, vals) in
  let '(cond, vals) :=
    if negb (String.eqb (TransferRequest.Dataset req) "")
    then (cond ++ ["D.DATASET=" +:+ placeholder dbtype "dataset"],
          vals ++ [VString (TransferRequest.Dataset req)])
    else (cond, vals) in
  let stm :=
    if (0 <? length cond)%nat
    then append_sql stm (" WHERE " +:+ strings_Join cond " AND ")
    else stm in
  verbose ← gets VERBOSE;
  (if 0 <? verbose
   then log_Println [LString "Records query"; LStatement stm; LValues vals]
   else mret tt);;
  (* fetch data from DB *)
  '(rows, err) ← DB_Query stm vals;
  match err with
  | Some _ =>
      log_Printf "ERROR DB.Query, query='%s' error=%v\n"
                 [LStatement stm; LError err];;
      mret (Slice [])
  | None =>
      for_fold rows NilSlice (λ out row,
        let rec := {| Lfn := ""; Pfn := ""; Dataset := ""; Block := "";
                      Bytes := 0; Hash := "" |} in
        let '(rec, err) := Scan_entry row rec in
        (match err with
         | Some _ => log_Println [LString "ERROR rows.Scan"; LError err]
         | None => mret tt
         end);;
        mret (append out rec))
  end.

(** [func (c *Catalog) Files(dataset, block, lfn string) []string]. *)
Definition Files (c : Catalog) (dataset block lfn : string)
    : M state (slice string) :=
  let files : slice string := NilSlice in
  let req := {| TransferRequest.Dataset := dataset;
                TransferRequest.Block := block;
                TransferRequest.File := lfn |} in
  recs ← Records c req;
  for_fold (elems recs) files (λ files rec, mret (append files (Lfn rec))).

End core.

(** ** Package server: agent registration *)

Module server.

Import go.
Local Open Scope Z_scope.

(** [type AgentInfo struct]. *)
Record AgentInfo : Type := { Agent : string; Alias : string }.

(** What the program does not decide: the answers of the network, the
    JSON codec, and the order in which the runtime walks a map (left
    open by the language). *)
Record world : Type := {
  FetchResponse : string → string → utils.ResponseType;
  json_Marshal : AgentInfo → string * error;
  json_Unmarshal : string → gmap string string * error;
  range : gmap string string → list (string * string) }.

Inductive logarg : Type :=
| LString (s : string)
| LError (e : error)
| LAgentInfo (a : AgentInfo)
| LAgents (m : gmap string string).

Inductive logline : Type :=
| Println (args : list logarg)
| Printf (format : string) (args : list logarg)
| Print (args : list logarg).

(** The globals of server.go that registration uses, the requests sent
    so far (url and body, oldest first) and standard error. *)
Record state : Type := {
  _myself : string;
  _alias : string;
  _agents : gmap string string;
  sent : list (string * string);
  stderr : list logline }.

Definition set_agents (m : gmap string string) (s : state) : state :=
  {| _myself := _myself s; _alias := _alias s; _agents := m;
     sent := sent s; stderr := stderr s |}.
Definition set_sent (l : list (string * string)) (s : state) : state :=
  {| _myself := _myself s; _alias := _alias s; _agents := _agents s;
     sent := l; stderr := stderr s |}.
Definition set_stderr (l : list logline) (s : state) : state :=
  {| _myself := _myself s; _alias := _alias s; _agents := _agents s;
     sent := sent s; stderr := l |}.

Definition log_Println (args : list logarg) : M state unit :=
  modify (λ s, set_stderr (stderr s ++ [Println args]) s).
Definition log_Printf (format : string) (args : list logarg) : M state unit :=
  modify (λ s, set_stderr (stderr s ++ [Printf format args]) s).
(** [log.Fatal(v...)]: [Print] followed by [os.Exit(1)]. *)
Definition log_Fatal {A} (args : list logarg) : M state A :=
  modify (λ s, set_stderr (stderr s ++ [Print args]) s);; exit 1.

(** [utils.FetchResponse(url, data)]: one request on the network. *)
Definition utils_FetchResponse (W : world) (url data : string)
    : M state utils.ResponseType :=
  modify (λ s, set_sent (sent s ++ [(url, data)]) s);;
  mret (FetchResponse W url data).

(** [func register(register, alias, agent string) error]. *)
Definition register (W : world) (register alias agent : string)
    : M state error :=
  log_Printf "Register %s as %s on %s\n"
             [LString agent; LString alias; LString register];;
  (* register myself with another agent *)
  myself ← gets _myself;
  al ← gets _alias;
  let params := {| Agent := myself; Alias := al |} in
  let '(data, err) := json_Marshal W params in
  (match err with
   | Some _ => log_Println [LString "ERROR, unable to marshal params";
                            LAgentInfo params]
   | None => mret tt
   end);;
  let url := register +:+ "/register" in
  resp ← utils_FetchResponse W url data;  (* POST request *)
  (* check return status code *)
  if negb (utils.StatusCode resp =? 200)
  then mret (Some ("Response " +:+ utils.Status resp +:+ ", error="
                     +:+ utils.Data resp))
  else mret (utils.Error resp).

(** [func registerAtAgents(aName string)]. *)
Definition registerAtAgents (W : world) (aName : string) : M state unit :=
  (* register itself *)
  alias ← gets _alias;
  myself ← gets _myself;
  agents ← gets _agents;
  (match agents !! alias with
   | Some _ => log_Fatal [LString "ERROR unable to register"; LString alias;
                          LString "at"; LAgents agents;
                          LString "since this name already exists"]
   | None => mret tt
   end);;
  modify (λ s, set_agents (<[alias := myself]> (_agents s)) s);;
  (* now ask remote server for its list of agents and update internal map *)
  (if negb (String.eqb aName "") && (0 <? Z.of_nat (String.length aName))
   then
     err ← register W aName alias myself;
     (match err with
      | Some _ => log_Fatal [LString "ERROR Unable to register";
                             LString alias; LString myself; LString "at";
                             LString aName; LError err]
      | None => mret tt
      end);;
     let aurl := aName +:+ "/agents" in
     resp ← utils_FetchResponse W aurl "";
     let '(remoteAgents, e) := json_Unmarshal W (utils.Data resp) in
     match e with
     | None =>
         for_range (range W remoteAgents) (λ kv,
           agents ← gets _agents;
           match agents !! kv.1 with
           | None =>
               (* register remote agent/alias pair internally *)
               modify (λ s, set_agents (<[kv.1 := kv.2]> (_agents s)) s)
           | Some _ => mret tt
           end)
     | Some _ => mret tt
     end
   else mret tt);;
  (* complete registration with other agents *)
  agents ← gets _agents;
  for_range (range W agents) (λ aa,
    let '(alias', agent) := aa in
    if String.eqb agent aName || String.eqb alias' alias
    then mret tt
    else _ ← register W agent alias myself; mret tt).

End server.

(** ** Notions the properties are stated with *)

Module utils_spec.

Definition bytes_of_string (s : string) : list byte :=
  map byte_of_ascii (list_ascii_of_string s).

Definition lowercase_hex (c : ascii) : Prop :=
  c ∈ list_ascii_of_string utils.hex.hextable.

End utils_spec.

Module core_spec.

Import go core.
Local Open Scope Z_scope.

Definition sql (k : template) : statement := {| tmpl := k; tail := "" |}.

(** The rows of the join as catalog entries: what the catalog holds. *)
Definition catalog_entries (t : tables) : list CatalogEntry :=
  f ← FILES t;
  b ← filter (λ b, b.1 = f_blockid f) (BLOCKS t);
  d ← filter (λ d, d.1 = f_datasetid f) (DATASETS t);
  [{| Lfn := f_lfn f; Pfn := f_pfn f; Dataset := d.2; Block := b.2;
      Bytes := f_bytes f; Hash := f_hash f |}].

Definition entry_values (e : CatalogEntry) : list value :=
  [VString (Dataset e); VString (Block e); VString (Lfn e);
   VString (Pfn e); VInt (Bytes e); VString (Hash e)].

(** An entry agrees with every non-empty field of the filter. *)
Definition matches (req : TransferRequest.t) (e : CatalogEntry) : Prop :=
  (TransferRequest.File req = "" ∨ Lfn e = TransferRequest.File req) ∧
  (TransferRequest.Block req = "" ∨ Block e = TransferRequest.Block req) ∧
  (TransferRequest.Dataset req = "" ∨
   Dataset e = TransferRequest.Dataset req).

#[global] Instance matches_dec req e : Decision (matches req e).
Proof. unfold matches. apply _. Defined.

Definition no_filter : TransferRequest.t :=
  {| TransferRequest.File := ""; TransferRequest.Block := "";
     TransferRequest.Dataset := "" |}.

(** The statement and the arguments [Records] hands to [DB.Query]. *)
Definition query_cond (dbtype : string) (req : TransferRequest.t)
    : list string :=
  (if decide (TransferRequest.File req = "") then []
   else ["F.LFN=" +:+ placeholder dbtype "lfn"]) ++
  (if decide (TransferRequest.Block req = "") then []
   else ["B.BLOCK=" +:+ placeholder dbtype "block"]) ++
  (if decide (TransferRequest.Dataset req = "") then []
   else ["D.DATASET=" +:+ placeholder dbtype "dataset"]).

Definition query_vals (req : TransferRequest.t) : list value :=
  (if decide (TransferRequest.File req = "") then []
   else [VString (TransferRequest.File req)]) ++
  (if decide (TransferRequest.Block req = "") then []
   else [VString (TransferRequest.Block req)]) ++
  (if decide (TransferRequest.Dataset req = "") then []
   else [VString (TransferRequest.Dataset req)]).

Definition query_stm (stm : statement) (dbtype : string)
    (req : TransferRequest.t) : statement :=
  match query_cond dbtype req with
  | [] => stm
  | cond => append_sql stm (" WHERE " +:+ strings_Join cond " AND ")
  end.

(** What the driver answers to the query of [Records] in state [s]. *)
Definition query_answer (stm0 : statement) (req : TransferRequest.t)
    (s : state) : list (list value) * error :=
  match hd nil (driver s) with
  | Some msg => ([], Some msg)
  | None => query_statement (query_stm stm0 (DBTYPE s) req)
                            (query_vals req) (DB s)
  end.

Definition zero_entry : CatalogEntry :=
  {| Lfn := ""; Pfn := ""; Dataset := ""; Block := ""; Bytes := 0;
     Hash := "" |}.

(** What [Records] makes of an answer: a slice that is not nil and has
    no element when the query failed, the scanned rows appended to the
    nil slice otherwise. *)
Definition scanned (r : list (list value) * error) : slice CatalogEntry :=
  match r.2 with
  | Some _ => Slice []
  | None => appended (map (λ row, (Scan_entry row zero_entry).1) r.1)
  end.

(** The id [Add] reads back for a name: that of the last row the query
    returns, 0 when there is none. *)
Definition id_of (name : string) (T : list (Z * string)) : Z :=
  fold_left (λ _ r, r.1) (filter (λ r, r.2 = name) T) 0.

(** The tables after the three inserts of [Add], every driver call
    having run. *)
Definition added (e : CatalogEntry) (t : tables) : tables :=
  let t1 := (exec_statement (sql insert_datasets)
               [VString (Dataset e)] t).2 in
  let did := id_of (Dataset e) (DATASETS t1) in
  let t2 := (exec_statement (sql insert_blocks)
               [VString (Block e)] t1).2 in
  let bid := id_of (Block e) (BLOCKS t2) in
  (exec_statement (sql insert_files)
     [VString (Lfn e); VString (Pfn e); VInt bid; VInt did;
      VInt (Bytes e); VString (Hash e)] t2).2.

(** What the schema keeps true: primary keys and unique columns. *)
Record wf_tables (t : tables) : Prop := {
  wf_dataset_ids : NoDup (ids (DATASETS t));
  wf_dataset_names : NoDup (names (DATASETS t));
  wf_block_ids : NoDup (ids (BLOCKS t));
  wf_block_names : NoDup (names (BLOCKS t));
  wf_file_ids : NoDup (map f_id (FILES t));
  wf_file_keys : NoDup (map file_key (FILES t)) }.

(** An entry of the catalog for the dataset, block and lfn of [e]. *)
Definition same_key (e r : CatalogEntry) : Prop :=
  Dataset r = Dataset e ∧ Block r = Block e ∧ Lfn r = Lfn e.

#[global] Instance same_key_dec e r : Decision (same_key e r).
Proof. unfold same_key. apply _. Defined.

End core_spec.

Module server_spec.

Import go server.
Local Open Scope Z_scope.

(** The body of a registration request: this agent's url and alias. *)
Definition announcement (W : world) (s : state) : string :=
  (json_Marshal W {| Agent := _myself s; Alias := _alias s |}).1.

(** What [register] returns for the answer of the peer. *)
Definition register_result (W : world) (s : state) (peer : string)
    : error :=
  let resp := FetchResponse W (peer +:+ "/register") (announcement W s) in
  if negb (utils.StatusCode resp =? 200)
  then Some ("Response " +:+ utils.Status resp +:+ ", error="
               +:+ utils.Data resp)
  else utils.Error resp.

(** The entries of the table [registerAtAgents] announces itself to:
    all but those with the url of the bootstrap peer or with the
    agent's own alias. *)
Definition other_peer (aName alias : string) (aa : string * string)
    : Prop :=
  aa.2 ≠ aName ∧ aa.1 ≠ alias.

#[global] Instance other_peer_dec aName alias aa :
  Decision (other_peer aName alias aa).
Proof. unfold other_peer. apply _. Defined.

(** The order in which a map is walked is some order of its entries. *)
Definition range_sound (W : world) : Prop :=
  ∀ m, range W m ≡ₚ map_to_list m.

(** States with the same globals. *)
Definition same_globals (s s' : state) : Prop :=
  _myself s' = _myself s ∧ _alias s' = _alias s ∧ _agents s' = _agents s.

End server_spec.

(** ** Concrete inputs *)

Module inputs.

Import core core_spec.
Local Open Scope Z_scope.

Definition tfc : Catalog :=
  {| Type_ := "sqlite3"; Uri := "catalog.db"; Login := ""; Password := "";
     Owner := "" |}.

Definition no_tables : tables :=
  {| DATASETS := []; BLOCKS := []; FILES := [] |}.

(** A process with the sqlite3 templates loaded whose driver will
    report the failures [d]. *)
Definition process (t : tables) (d : list go.error) : state :=
  {| DB := t; DBTYPE := "sqlite3"; DBSQL := loaded_sql; VERBOSE := 0;
     driver := d; stderr := [] |}.

Definition file_a : CatalogEntry :=
  {| Lfn := "/store/a.root"; Pfn := "/data/a.root"; Dataset := "/a/b/c";
     Block := "/a/b/c#1"; Bytes := 10; Hash := "ff" |}.

(** The driver reports a failure on its fourth call, the insert of
    the block, or on its sixth, the insert of the file row. *)
Definition locked_at_block_insert : state :=
  process no_tables [go.nil; go.nil; go.nil; Some "database is locked"].

Definition io_error_at_file_insert : state :=
  process no_tables
    [go.nil; go.nil; go.nil; go.nil; go.nil; Some "disk I/O error"].

Definition file_b : CatalogEntry :=
  {| Lfn := "/store/b.root"; Pfn := "/data/b.root"; Dataset := "/a/b/c";
     Block := "/a/b/c#2"; Bytes := 20; Hash := "ee" |}.

Definition two_files : tables := added file_b (added file_a no_tables).

Definition by_block : TransferRequest.t :=
  {| TransferRequest.File := ""; TransferRequest.Block := "/a/b/c#2";
     TransferRequest.Dataset := "/a/b/c" |}.

(** A block [two_files] does not have. *)
Definition by_absent_block : TransferRequest.t :=
  {| TransferRequest.File := ""; TransferRequest.Block := "/a/b/c#9";
     TransferRequest.Dataset := "/a/b/c" |}.

(** A network of one peer [http://a], which knows itself, a site C and
    another url for B. *)
Definition net : server.world :=
  {| server.FetchResponse url data :=
       {| utils.Status := "200 OK"; utils.StatusCode := 200;
          utils.Data := "agents of a"; utils.Error := go.nil |};
     server.json_Marshal a :=
       ("{" +:+ server.Agent a +:+ "," +:+ server.Alias a +:+ "}", go.nil);
     server.json_Unmarshal d :=
       (list_to_map [("A", "http://a"); ("C", "http://c");
                     ("B", "http://elsewhere")], go.nil);
     server.range m := map_to_list m |}.

Definition agent_b (known : gmap string string) : server.state :=
  {| server._myself := "http://b"; server._alias := "B";
     server._agents := known; server.sent := []; server.stderr := [] |}.

End inputs.

(** ** Reasoning about every run of the catalog code *)

Module core_logic.

Import go core core_spec.
Local Open Scope Z_scope.

(** Started in a state where [I] holds, [m] ends in a state where [I]
    holds, and it either returns a value with [Q] or ends the process
    with status 1. *)
Definition hoare {A : Type} (I : state → Prop) (Q : A → Prop)
    (m : M state A) : Prop :=
  ∀ s, I s →
    I (m s).2 ∧
    match (m s).1 with
    | Return a => Q a
    | Exit code => code = 1
    end.

(** [I] does not look at what was logged nor at the driver's future. *)
Record io_stable (I : state → Prop) : Prop := {
  stable_stderr : ∀ l s, I s → I (set_stderr l s);
  stable_driver : ∀ d s, I s → I (set_driver d s) }.

(** [I] survives every statement the database executes. *)
Definition exec_stable (I : state → Prop) : Prop :=
  ∀ stm args s, I s → I (set_DB (exec_statement stm args (DB s)).2 s).

(** Tables that only got rows appended. *)
Definition grows (t t' : tables) : Prop :=
  DATASETS t `prefix_of` DATASETS t' ∧
  BLOCKS t `prefix_of` BLOCKS t' ∧
  FILES t `prefix_of` FILES t'.

(** The templates [Add] asks [getSQL] for. *)
Definition Add_templates : list string :=
  ["insert_datasets"; "id_datasets"; "insert_blocks"; "id_blocks";
   "insert_files"].

(** The filter that names the dataset, block and lfn of an entry. *)
Definition request_for (e : CatalogEntry) : TransferRequest.t :=
  {| TransferRequest.File := Lfn e; TransferRequest.Block := Block e;
     TransferRequest.Dataset := Dataset e |}.

End core_logic.

(** ** Reasoning about every run of the registration code *)

Module server_logic.

Import go server.

(** [m] keeps [I]: started where [I] holds it ends where [I] holds. *)
Definition keeps {A : Type} (I : state → Prop) (m : M state A) : Prop :=
  ∀ s, I s → I (m s).2.

(** [I] looks at nothing but the agent's own url and alias. *)
Record identity_only (I : state → Prop) : Prop := {
  frame_agents : ∀ m s, I s → I (set_agents m s);
  frame_sent : ∀ l s, I s → I (set_sent l s);
  frame_stderr : ∀ l s, I s → I (set_stderr l s) }.

End server_logic.

(** ** More concrete inputs *)

Module more_inputs.

Import core core_spec inputs.
Local Open Scope Z_scope.

Definition sites : list string := ["T2_B"; "T1_A"; "T2_B"; "T3_C"; "T1_A"].

Definition sizes : gmap string Z :=
  list_to_map [("lfn", 1); ("pfn", 2); ("bytes", 3)].

(** A process whose template [key] was not found by [LoadSQL]. *)
Definition process_without (key : string) (t : tables) : state :=
  {| DB := t; DBTYPE := "sqlite3"; DBSQL := delete key loaded_sql;
     VERBOSE := 0; driver := []; stderr := [] |}.

(** [file_a] again, stored somewhere else with another content. *)
Definition file_a_moved : CatalogEntry :=
  {| Lfn := "/store/a.root"; Pfn := "/elsewhere/a.root";
     Dataset := "/a/b/c"; Block := "/a/b/c#1"; Bytes := 11; Hash := "00" |}.

Definition file_c : CatalogEntry :=
  {| Lfn := "/store/c.root"; Pfn := "/data/c.root"; Dataset := "/x/y/z";
     Block := "/a/b/c#1"; Bytes := 30; Hash := "dd" |}.

(** A bootstrap peer that turns the registration down. *)
Definition net_refusing : server.world :=
  {| server.FetchResponse url data :=
       {| utils.Status := "500 Internal Server Error";
          utils.StatusCode := 500; utils.Data := "no";
          utils.Error := go.nil |};
     server.json_Marshal := server.json_Marshal net;
     server.json_Unmarshal := server.json_Unmarshal net;
     server.range := server.range net |}.

(** A bootstrap peer whose table does not decode. *)
Definition net_garbled : server.world :=
  {| server.FetchResponse := server.FetchResponse net;
     server.json_Marshal := server.json_Marshal net;
     server.json_Unmarshal d :=
       (∅, Some "invalid character 'a' looking for beginning of value");
     server.range := server.range net |}.

End more_inputs.

(** * Properties *)

(** ** Running effectful code *)

Lemma bind_run {S A B} (m : go.M S A) (k : A → go.M S B) s :
  (m ≫= k) s = match m s with
               | (go.Return a, s') => k a s'
               | (go.Exit c, s') => (go.Exit c, s')
               end.
Proof. reflexivity. Qed.

(** ** Lists *)

Section list_facts.

Context {A B : Type}.

Lemma fmap_list_bind {C} (f : B → C) (g : A → list B) (l : list A) :
  f <$> (l ≫= g) = l ≫= (λ x, f <$> g x).
Proof.
  induction l as [|x l IH]; [reflexivity|].
  cbn [mbind list_bind]. rewrite fmap_app. f_equal. exact IH.
Qed.

Lemma filter_list_bind (P : B → Prop) `{∀ x, Decision (P x)}
    (g : A → list B) (l : list A) :
  filter P (l ≫= g) = l ≫= (λ x, filter P (g x)).
Proof.
  induction l as [|x l IH]; [reflexivity|].
  cbn [mbind list_bind]. rewrite filter_app. f_equal. exact IH.
Qed.

Lemma filter_fmap_list (f : A → B) (P : B → Prop) `{∀ x, Decision (P x)}
    (l : list A) :
  filter P (f <$> l) = f <$> filter (λ x, P (f x)) l.
Proof.
  induction l as [|x l IH]; [reflexivity|].
  cbn [fmap list_fmap]. rewrite !filter_cons.
  destruct (decide (P (f x))); cbn [fmap list_fmap]; rewrite IH;
    reflexivity.
Qed.

Lemma filter_none (P : A → Prop) `{∀ x, Decision (P x)} (l : list A) :
  (∀ x, x ∈ l → ¬ P x) → filter P l = [].
Proof.
  intros Hl. apply elem_of_nil_inv. intros x [HP Hx]%list_elem_of_filter.
  exact (Hl x Hx HP).
Qed.

Lemma filter_all (P : A → Prop) `{∀ x, Decision (P x)} (l : list A) :
  (∀ x, x ∈ l → P x) → filter P l = l.
Proof.
  induction l as [|x l IH]; intros Hl; [reflexivity|].
  rewrite filter_cons, decide_True by (apply Hl; left).
  f_equal. apply IH. intros y Hy. apply Hl. by right.
Qed.

(** In a column without duplicates a value selects one row. *)
Lemma filter_unique `{EqDecision B} (k : A → B) (l : list A) (x : A) :
  NoDup (map k l) → x ∈ l → filter (λ y, k y = k x) l = [x].
Proof.
  induction l as [|y l IH]; intros Hnd Hx; [by apply elem_of_nil in Hx|].
  cbn [map] in Hnd. apply NoDup_cons in Hnd as [Hy Hnd].
  rewrite filter_cons. apply elem_of_cons in Hx as [->|Hx].
  - rewrite decide_True by reflexivity. f_equal.
    apply filter_none. intros z Hz Heq. apply Hy. rewrite <- Heq.
    apply list_elem_of_In, in_map, list_elem_of_In, Hz.
  - rewrite decide_False; [by apply IH|].
    intros Heq. apply Hy. rewrite Heq.
    apply list_elem_of_In, in_map, list_elem_of_In, Hx.
Qed.

Lemma length_bind_select (Q : A → Prop) `{∀ x, Decision (Q x)}
    (g : A → B) (l : list A) :
  length (l ≫= (λ x, if decide (Q x) then [g x] else [])) =
  length (filter Q l).
Proof.
  induction l as [|x l IH]; [reflexivity|].
  cbn [mbind list_bind]. rewrite length_app, filter_cons.
  destruct (decide (Q x)); cbn [length]; rewrite IH; reflexivity.
Qed.

Lemma NoDup_snoc (l : list A) (x : A) :
  NoDup l → x ∉ l → NoDup (l ++ [x]).
Proof.
  intros Hl Hx. apply NoDup_app. split; [exact Hl|]. split.
  - intros y Hy ->%list_elem_of_singleton. exact (Hx Hy).
  - apply NoDup_singleton.
Qed.

End list_facts.

(** ** Slices *)

Section slice_facts.

Import go.
Context {A : Type}.
Implicit Types (l : list A) (s : slice A).

Lemma fold_append l s :
  fold_left append l s = match l with
                         | [] => s
                         | _ :: _ => Slice (elems s ++ l)
                         end.
Proof.
  revert s. induction l as [|x l IH]; intros s; [reflexivity|].
  cbn [fold_left]. rewrite IH. unfold append at 2. cbn [elems].
  destruct l; [reflexivity|]. by rewrite <- app_assoc.
Qed.

(** Appending to the nil slice gives the nil slice for no element and a
    slice that is not nil otherwise. *)
Lemma appended_cases l :
  appended l = match l with
               | [] => NilSlice
               | _ :: _ => Slice l
               end.
Proof. unfold appended. rewrite fold_append. destruct l; reflexivity. Qed.

Lemma elems_appended l : elems (appended l) = l.
Proof. rewrite appended_cases. destruct l; reflexivity. Qed.

Lemma appended_nil l : appended l = NilSlice ↔ l = [].
Proof. rewrite appended_cases. destruct l; split; congruence. Qed.

End slice_facts.

(** ** utils.Hash *)

Section hash_facts.

Import utils utils_spec.
Local Open Scope Z_scope.

(** The test vectors of FIPS 180-4 for SHA-256, through [Hash]. *)
Example Hash_abc :
  Hash (bytes_of_string "abc") =
  ("ba7816bf8f01cfea414140de5dae2223b00361a396177a9cb410ff61f20015ad", 3).
Proof. vm_compute. reflexivity. Qed.

Example Hash_empty :
  Hash [] =
  ("e3b0c44298fc1c149afbf4c8996fb92427ae41e4649b934ca495991b7852b855", 0).
Proof. vm_compute. reflexivity. Qed.

Example Hash_two_blocks :
  Hash (bytes_of_string
          "abcdbcdecdefdefgefghfghighijhijkijkljklmklmnlmnomnopnopq") =
  ("248d6a61d20638b8e5c026930c3e6039a33ce45964ff2167f6ecedd419db06c1", 56).
Proof. vm_compute. reflexivity. Qed.

Lemma Sum256_length (data : list byte) :
  length (sha256.Sum256 data) = 32%nat.
Proof. unfold sha256.Sum256. rewrite length_map. reflexivity. Qed.

Lemma EncodeToString_lowercase (src : list byte) :
  Forall lowercase_hex (list_ascii_of_string (hex.EncodeToString src)).
Proof.
  induction src as [|v rest IH]; simpl.
  - constructor.
  - constructor; [|constructor; [|exact IH]];
      unfold lowercase_hex; destruct v; vm_compute;
      repeat (first [apply list_elem_of_here | apply list_elem_of_further]).
Qed.

Lemma EncodeToString_length (src : list byte) :
  String.length (hex.EncodeToString src) = (2 * length src)%nat.
Proof.
  induction src as [|v rest IH]; simpl; [reflexivity|]. rewrite IH. lia.
Qed.

Lemma DecodeString_EncodeToString (src : list byte) :
  hex.DecodeString (hex.EncodeToString src) = Some src.
Proof.
  induction src as [|v rest IH]; [reflexivity|].
  cbn [hex.EncodeToString hex.DecodeString]. rewrite IH.
  destruct v; vm_compute; reflexivity.
Qed.

(** C10: for every byte sequence, [Hash] returns the lowercase
    hexadecimal encoding of the SHA-256 digest of the data (64 digits
    out of 0-9a-f that decode to the 32 bytes of the digest) and the
    number of bytes of the data. *)
Theorem Hash_hex_sha256_and_length (data : list byte) :
  Hash data = (hex.EncodeToString (sha256.Sum256 data),
               Z.of_nat (length data))
  ∧ hex.DecodeString (Hash data).1 = Some (sha256.Sum256 data)
  ∧ String.length (Hash data).1 = 64%nat
  ∧ Forall lowercase_hex (list_ascii_of_string (Hash data).1).
Proof.
  assert (Hash data = (hex.EncodeToString (sha256.Sum256 data),
                       Z.of_nat (length data))) as ->.
  { reflexivity. }
  cbn [fst]. split; [reflexivity|]. split; [|split].
  - apply DecodeString_EncodeToString.
  - rewrite EncodeToString_length, Sum256_length. reflexivity.
  - apply EncodeToString_lowercase.
Qed.

End hash_facts.

(** ** The catalog: queries *)

Section catalog_queries.

Import go core core_spec.
Local Open Scope Z_scope.

(** C9: for every placeholder name, [placeholder] is the name with a
    colon in front for the dialects "ora" and "oci8", the name with a
    dollar in front for "PostgreSQL", and "?" for every other dialect. *)
Theorem placeholder_by_dialect (DBTYPE pholder : string) :
  (DBTYPE = "ora" ∨ DBTYPE = "oci8" →
     placeholder DBTYPE pholder = ":" +:+ pholder) ∧
  (DBTYPE = "PostgreSQL" → placeholder DBTYPE pholder = "$" +:+ pholder) ∧
  (DBTYPE ≠ "ora" → DBTYPE ≠ "oci8" → DBTYPE ≠ "PostgreSQL" →
     placeholder DBTYPE pholder = "?").
Proof.
  unfold placeholder. split; [|split].
  - intros [-> | ->]; reflexivity.
  - intros ->. reflexivity.
  - intros H1 H2 H3.
    destruct (String.eqb_spec DBTYPE "ora"); [done|].
    destruct (String.eqb_spec DBTYPE "oci8"); [done|].
    destruct (String.eqb_spec DBTYPE "PostgreSQL"); [done|].
    reflexivity.
Qed.

Lemma joined_entries t : joined t = entry_values <$> catalog_entries t.
Proof.
  unfold joined, catalog_entries.
  rewrite fmap_list_bind. apply list_bind_ext; [|reflexivity]. intros f.
  rewrite fmap_list_bind. apply list_bind_ext; [|reflexivity]. intros b.
  rewrite fmap_list_bind. apply list_bind_ext; [|reflexivity]. intros d.
  reflexivity.
Qed.

Lemma getSQL_run key stm s :
  DBSQL s !! key = Some stm → getSQL key s = (Return stm, s).
Proof.
  intros H. unfold getSQL. rewrite bind_run. cbn. rewrite H. reflexivity.
Qed.

Lemma driver_call_run s :
  driver_call s = (Return (hd nil (driver s)), set_driver (tl (driver s)) s).
Proof. unfold driver_call. destruct s as [? ? ? ? [|f d] ?]; reflexivity. Qed.

Lemma DB_Query_run stm vals s :
  DB_Query stm vals s =
  (Return (match hd nil (driver s) with
           | Some msg => ([], Some msg)
           | None => query_statement stm vals (DB s)
           end), set_driver (tl (driver s)) s).
Proof.
  unfold DB_Query. rewrite bind_run, driver_call_run.
  destruct (hd nil (driver s)); reflexivity.
Qed.

Ltac msimpl :=
  unfold log_Fatal, log_Fatalf, log_Printf, log_Println;
  unfold mbind, go_M_bind, bind, mret, go_M_ret, ret, modify, gets, exit;
  cbn [set_stderr set_driver set_DB DB DBTYPE DBSQL VERBOSE driver stderr
       fst snd].

(** The loop over the rows returns one entry per row, in order. *)
Lemma scan_loop_run (rows : list (list value)) (out : slice CatalogEntry) s :
  ∃ l, for_fold rows out
      (λ (out : slice CatalogEntry) (row : list value),
         let '(rec, err0) := Scan_entry row zero_entry in
         match err0 with
         | Some _ => log_Println [LString "ERROR rows.Scan"; LError err0]
         | None => mret ()
         end ≫= λ _ : (), mret (append out rec)) s
  = (Return (fold_left append
               (map (λ row, (Scan_entry row zero_entry).1) rows) out),
     set_stderr (stderr s ++ l) s).
Proof.
  revert out s. induction rows as [|row rows IH]; intros out s.
  - exists []. cbn. rewrite !app_nil_r. destruct s; reflexivity.
  - cbn [for_fold]. change (bind ?m ?k) with (m ≫= k).
    rewrite bind_run.
    destruct (Scan_entry row zero_entry) as [rec err] eqn:Hscan.
    destruct err as [msg|].
    + rewrite bind_run. cbn [log_Println modify mret go_M_ret ret].
      destruct (IH (append out rec)
                  (set_stderr (stderr s ++
                     [Println [LString "ERROR rows.Scan";
                               LError (Some msg)]]) s)) as [l Hl].
      rewrite Hl.
      exists ([Println [LString "ERROR rows.Scan"; LError (Some msg)]] ++ l).
      cbn [map fold_left]. rewrite Hscan. cbn [fst stderr set_stderr].
      rewrite <- !app_assoc. reflexivity.
    + rewrite bind_run. cbn [mret go_M_ret ret].
      destruct (IH (append out rec) s) as [l Hl]. rewrite Hl.
      exists l. cbn [map fold_left]. rewrite Hscan. reflexivity.
Qed.

Lemma scan_entry_values (es : list CatalogEntry) :
  map (λ row, (Scan_entry row zero_entry).1) (entry_values <$> es) = es.
Proof.
  induction es as [|e es IH]; [reflexivity|].
  cbn. f_equal; [destruct e; reflexivity | exact IH].
Qed.

(** [Records] from the point where the statement is built. *)
Lemma fetch_run (stm : statement) (vals : list value) s :
  let answer := match hd nil (driver s) with
                | Some msg => ([], Some msg)
                | None => query_statement stm vals (DB s)
                end in
  ∃ l,
  ((if 0 <? VERBOSE s
    then log_Println [LString "Records query"; LStatement stm; LValues vals]
    else mret ()) ≫= λ _ : (),
     DB_Query stm vals ≫= λ pat : list (list value) * option string,
       match pat with
       | (rows, Some _ as err) =>
           log_Printf "ERROR DB.Query, query='%s' error=%v\n"
                      [LStatement stm; LError err] ≫= λ _ : (),
             mret (Slice [])
       | (rows, None) =>
           for_fold rows NilSlice
             (λ (out : slice CatalogEntry) (row : list value),
                let '(rec, err0) := Scan_entry row zero_entry in
                match err0 with
                | Some _ =>
                    log_Println [LString "ERROR rows.Scan"; LError err0]
                | None => mret ()
                end ≫= λ _ : (), mret (append out rec))
       end) s
  = (Return (scanned answer),
     set_stderr (stderr s ++ l) (set_driver (tl (driver s)) s))
  ∧ (∀ msg, answer.2 = Some msg →
       last l = Some (Printf "ERROR DB.Query, query='%s' error=%v\n"
                             [LStatement stm; LError (Some msg)])).
Proof.
  intros answer. rewrite bind_run.
  set (s1 := if 0 <? VERBOSE s
             then set_stderr (stderr s ++
                    [Println [LString "Records query"; LStatement stm;
                              LValues vals]]) s
             else s).
  assert (((if 0 <? VERBOSE s
    then log_Println [LString "Records query"; LStatement stm; LValues vals]
    else mret ()) s) = (Return tt, s1)) as ->.
  { subst s1. destruct (0 <? VERBOSE s); reflexivity. }
  assert (Hs1 : ∃ l0, s1 = set_stderr (stderr s ++ l0) s).
  { subst s1. destruct (0 <? VERBOSE s); [eexists; reflexivity|].
    exists []. rewrite app_nil_r. destruct s; reflexivity. }
  destruct Hs1 as [l0 Hs1].
  rewrite bind_run, DB_Query_run.
  replace (driver s1) with (driver s) by (rewrite Hs1; reflexivity).
  replace (DB s1) with (DB s) by (rewrite Hs1; reflexivity).
  fold answer. destruct answer as [rows [msg|]].
  - exists (l0 ++ [Printf "ERROR DB.Query, query='%s' error=%v\n"
                      [LStatement stm; LError (Some msg)]]).
    split.
    + rewrite Hs1. msimpl. rewrite <- ?app_assoc. reflexivity.
    + intros msg' [= <-]. apply last_snoc.
  - destruct (scan_loop_run rows NilSlice (set_driver (tl (driver s)) s1))
      as [l1 Hl1].
    rewrite Hl1. exists (l0 ++ l1). split; [|discriminate].
    rewrite Hs1. msimpl. rewrite <- ?app_assoc. reflexivity.
Qed.

(** [Records] builds the query [query_stm], [query_vals] and returns
    what it scans from the answer; it never exits. *)
Lemma Records_run c req s stm0 :
  DBSQL s !! "files_blocks_datasets" = Some stm0 →
  ∃ l, Records c req s =
       (Return (scanned (query_answer stm0 req s)),
        set_stderr (stderr s ++ l) (set_driver (tl (driver s)) s))
     ∧ (∀ msg, (query_answer stm0 req s).2 = Some msg →
          last l = Some (Printf "ERROR DB.Query, query='%s' error=%v\n"
                                [LStatement (query_stm stm0 (DBTYPE s) req);
                                 LError (Some msg)])).
Proof.
  intros Hsql. unfold Records.
  rewrite bind_run, (getSQL_run _ stm0) by exact Hsql.
  rewrite bind_run. cbn [gets DBTYPE].
  unfold query_answer, query_stm, query_cond, query_vals.
  destruct req as [file block dataset].
  cbn [TransferRequest.File TransferRequest.Block TransferRequest.Dataset].
  destruct (String.eqb_spec file ""), (String.eqb_spec block ""),
           (String.eqb_spec dataset "");
    repeat case_decide; try congruence;
    cbn [negb app length Nat.ltb Nat.leb];
    rewrite bind_run; cbn [gets VERBOSE]; cbv zeta; apply fetch_run.
Qed.

Lemma satisfies_cons i v cols args row :
  satisfies (i :: cols) (v :: args) row = true ↔
  row !! i = Some v ∧ satisfies cols args row = true.
Proof.
  unfold satisfies. cbn [combine forallb fst snd].
  rewrite andb_true_iff, bool_decide_eq_true. reflexivity.
Qed.

(** The database answers the query of [Records], in every dialect, with
    the entries that agree with the non-empty fields of the filter. *)
Lemma query_matches dbtype req t :
  query_statement (query_stm (sql files_blocks_datasets) dbtype req)
                  (query_vals req) t
  = (entry_values <$> filter (matches req) (catalog_entries t), nil).
Proof.
  unfold query_stm, query_cond, query_vals, matches, query_statement,
    placeholder.
  destruct req as [file block dataset].
  cbn [TransferRequest.File TransferRequest.Block TransferRequest.Dataset].
  rewrite joined_entries.
  destruct (String.eqb dbtype "ora" || String.eqb dbtype "oci8");
    [|destruct (String.eqb dbtype "PostgreSQL")];
    repeat case_decide; cbn [app append_sql sql tmpl tail strings_Join];
    match goal with
    | |- context [parse_where ?x] =>
        let r := eval vm_compute in (parse_where x) in
        change (parse_where x) with r
    end;
    cbn [length];
    rewrite bool_decide_eq_true_2 by reflexivity;
    rewrite filter_fmap_list; f_equal; f_equal;
    apply list_filter_iff; intros e;
    rewrite ?satisfies_cons; cbn [entry_values lookup list_lookup];
    (split;
     [ intros; repeat split; try (left; assumption); right;
       intuition congruence
     | intros (H1' & H2' & H3'); repeat split; try reflexivity;
       f_equal; f_equal; intuition congruence ]).
Qed.

(** With the template loaded and no failure of the driver, [Records]
    returns the matching entries and leaves the tables alone. *)
Lemma Records_matching c req s :
  DBSQL s !! "files_blocks_datasets" = Some (sql files_blocks_datasets) →
  hd nil (driver s) = nil →
  ∃ s', Records c req s =
        (Return (appended (filter (matches req) (catalog_entries (DB s)))),
         s')
      ∧ DB s' = DB s.
Proof.
  intros Hsql Hdrv.
  destruct (Records_run c req s _ Hsql) as (l & Hrun & _).
  assert (scanned (query_answer (sql files_blocks_datasets) req s) =
          appended (filter (matches req) (catalog_entries (DB s)))) as Heq.
  { unfold query_answer. rewrite Hdrv. cbv beta iota delta [nil].
    rewrite query_matches. unfold scanned. cbn [fst snd nil].
    f_equal. apply scan_entry_values. }
  rewrite Heq in Hrun. rewrite Hrun. eexists. split; reflexivity.
Qed.

(** C4: for every filter and every catalog state, [Records] returns
    exactly the catalog entries whose fields equal every non-empty field
    of the filter (File, Block, Dataset, conjoined) and no others; with
    all three fields empty it returns every entry.  The slice returned
    is the nil slice with these entries appended, so its elements are
    exactly these entries. *)
Theorem Records_filter c req s :
  DBSQL s !! "files_blocks_datasets" = Some (sql files_blocks_datasets) →
  hd nil (driver s) = nil →
  ∃ out s',
    Records c req s = (Return out, s') ∧ DB s' = DB s ∧
    out = appended (filter (matches req) (catalog_entries (DB s))) ∧
    elems out = filter (matches req) (catalog_entries (DB s)) ∧
    (∀ e, e ∈ elems out ↔ e ∈ catalog_entries (DB s) ∧ matches req e) ∧
    (TransferRequest.File req = "" → TransferRequest.Block req = "" →
     TransferRequest.Dataset req = "" →
     elems out = catalog_entries (DB s)).
Proof.
  intros Hsql Hdrv.
  destruct (Records_matching c req s Hsql Hdrv) as (s' & Hrun & Hdb).
  exists (appended (filter (matches req) (catalog_entries (DB s)))), s'.
  split; [exact Hrun|]. split; [exact Hdb|]. split; [reflexivity|].
  rewrite elems_appended. split; [reflexivity|]. split.
  - intros e. rewrite list_elem_of_filter. tauto.
  - intros Hf Hb Hd. apply filter_all. intros e _.
    unfold matches. auto.
Qed.

(** C5, as amended: [Records] never hands an error to its caller.  It
    returns, whatever the filter; when the query fails it logs the
    failure and returns a slice of length 0, and it returns a slice of
    length 0 as well when no entry matches.  The two are not the same
    value: the slice of a failed query is not nil ([[]CatalogEntry{}]),
    that of a query without a match is the nil slice. *)
Theorem Records_empty_on_failure c req s stm0 :
  DBSQL s !! "files_blocks_datasets" = Some stm0 →
  ∃ out s',
    Records c req s = (Return out, s') ∧ DB s' = DB s ∧
    (∀ msg, (query_answer stm0 req s).2 = Some msg →
       out = Slice [] ∧ len out = 0%nat ∧ is_nil out = false ∧
       last (stderr s') =
         Some (Printf "ERROR DB.Query, query='%s' error=%v\n"
                      [LStatement (query_stm stm0 (DBTYPE s) req);
                       LError (Some msg)])) ∧
    (stm0 = sql files_blocks_datasets → hd nil (driver s) = nil →
     (∀ e, e ∈ catalog_entries (DB s) → ¬ matches req e) →
     out = NilSlice ∧ len out = 0%nat ∧ is_nil out = true).
Proof.
  intros Hsql.
  destruct (Records_run c req s _ Hsql) as (l & Hrun & Hlog).
  rewrite Hrun. eexists _, _. split; [reflexivity|].
  split; [reflexivity|]. split.
  - intros msg Hfail.
    assert (scanned (query_answer stm0 req s) = Slice []) as ->
      by (unfold scanned; by rewrite Hfail).
    repeat (split; [reflexivity|]).
    specialize (Hlog msg Hfail). cbn [stderr set_stderr].
    destruct l as [|x l]; [discriminate|].
    rewrite <- Hlog. rewrite !last_lookup, length_app.
    cbn [length]. rewrite lookup_app_r by lia.
    f_equal. lia.
  - intros -> Hdrv Hnone.
    assert (scanned (query_answer (sql files_blocks_datasets) req s)
            = NilSlice) as ->.
    { unfold query_answer. rewrite Hdrv. cbv beta iota delta [nil].
      rewrite query_matches. unfold scanned. cbn [fst snd nil].
      rewrite scan_entry_values. apply appended_nil.
      by apply filter_none. }
    repeat split.
Qed.

End catalog_queries.

(** ** The catalog: tables *)

Section catalog_tables.

Import go core core_spec.
Local Open Scope Z_scope.

Lemma le_max_of (l : list Z) (x : Z) : x ∈ l → x ≤ foldr Z.max 0 l.
Proof.
  induction l as [|y l IH]; [by intros ?%elem_of_nil|].
  intros [->|Hin]%elem_of_cons; cbn [foldr]; [lia|].
  specialize (IH Hin). lia.
Qed.

Lemma next_id_fresh (l : list Z) : next_id l ∉ l.
Proof. intros Hin%le_max_of. unfold next_id in Hin. lia. Qed.

(** Every statement keeps the tables well formed. *)
Lemma exec_statement_wf stm args t :
  wf_tables t → wf_tables (exec_statement stm args t).2.
Proof.
  intros [H1 H2 H3 H4 H5 H6]. unfold exec_statement.
  repeat (case_match; try (by split)); cbn [snd]; split;
    cbn [DATASETS BLOCKS FILES]; try assumption;
    unfold ids, names in *; rewrite ?map_app;
    cbn [map fst snd f_id file_key f_lfn f_blockid f_datasetid];
    apply NoDup_snoc; try assumption; try apply next_id_fresh;
    match goal with
    | H : bool_decide _ = false |- _ =>
        apply bool_decide_eq_false in H; exact H
    end.
Qed.

Lemma id_of_spec (name : string) (T : list (Z * string)) :
  NoDup (names T) → name ∈ names T → (id_of name T, name) ∈ T.
Proof.
  intros Hnd Hin.
  apply list_elem_of_In, in_map_iff in Hin as ([i n] & Hn & Hin).
  cbn in Hn. subst n. apply list_elem_of_In in Hin.
  unfold id_of.
  change (λ r : Z * string, r.2 = name)
    with (λ r : Z * string, r.2 = (i, name).2).
  rewrite (filter_unique snd T (i, name) Hnd Hin). exact Hin.
Qed.

Lemma unique_name (T : list (Z * string)) (i j : Z) (n : string) :
  NoDup (names T) → (i, n) ∈ T → (j, n) ∈ T → i = j.
Proof.
  intros Hnd Hi Hj.
  pose proof (filter_unique snd T (i, n) Hnd Hi) as Hf.
  assert ((j, n) ∈ filter (λ y : Z * string, y.2 = (i, n).2) T) as Hin
    by (apply list_elem_of_filter; split; [reflexivity | exact Hj]).
  rewrite Hf in Hin. apply list_elem_of_singleton in Hin. congruence.
Qed.

(** *** What the inserts leave behind *)

Lemma insert_datasets_tables name t :
  let t' := (exec_statement (sql insert_datasets) [VString name] t).2 in
  name ∈ names (DATASETS t') ∧ BLOCKS t' = BLOCKS t ∧ FILES t' = FILES t.
Proof.
  unfold exec_statement. cbn [sql tmpl tail].
  case_bool_decide; cbn; [done|].
  split; [|done]. unfold names. rewrite map_app.
  apply elem_of_app. right. by left.
Qed.

Lemma insert_blocks_tables name t :
  let t' := (exec_statement (sql insert_blocks) [VString name] t).2 in
  name ∈ names (BLOCKS t') ∧ DATASETS t' = DATASETS t ∧
  FILES t' = FILES t.
Proof.
  unfold exec_statement. cbn [sql tmpl tail].
  case_bool_decide; cbn; [done|].
  split; [|done]. unfold names. rewrite map_app.
  apply elem_of_app. right. by left.
Qed.

Lemma insert_files_tables lfn pfn bid did bytes hash t :
  let t' := (exec_statement (sql insert_files)
               [VString lfn; VString pfn; VInt bid; VInt did; VInt bytes;
                VString hash] t).2 in
  (lfn, bid, did) ∈ map file_key (FILES t') ∧
  DATASETS t' = DATASETS t ∧ BLOCKS t' = BLOCKS t.
Proof.
  unfold exec_statement. cbn [sql tmpl tail].
  case_bool_decide; cbn; [done|].
  split; [|done]. rewrite map_app. apply elem_of_app. right. by left.
Qed.

Lemma insert_datasets_again name t :
  name ∈ names (DATASETS t) →
  (exec_statement (sql insert_datasets) [VString name] t).2 = t.
Proof.
  intros Hin. unfold exec_statement. cbn [sql tmpl tail].
  by rewrite bool_decide_eq_true_2.
Qed.

Lemma insert_blocks_again name t :
  name ∈ names (BLOCKS t) →
  (exec_statement (sql insert_blocks) [VString name] t).2 = t.
Proof.
  intros Hin. unfold exec_statement. cbn [sql tmpl tail].
  by rewrite bool_decide_eq_true_2.
Qed.

Lemma insert_files_again lfn pfn bid did bytes hash t :
  (lfn, bid, did) ∈ map file_key (FILES t) →
  (exec_statement (sql insert_files)
     [VString lfn; VString pfn; VInt bid; VInt did; VInt bytes;
      VString hash] t).2 = t.
Proof.
  intros Hin. unfold exec_statement. cbn [sql tmpl tail].
  by rewrite bool_decide_eq_true_2.
Qed.

(** After the inserts of [Add] the tables are well formed and hold the
    dataset and the block under the ids [Add] read back, and a file row
    with the key (lfn, block id, dataset id). *)
Lemma added_tables e t :
  wf_tables t →
  let t' := added e t in
  ∃ did bid,
    wf_tables t' ∧ (did, Dataset e) ∈ DATASETS t' ∧
    (bid, Block e) ∈ BLOCKS t' ∧
    (Lfn e, bid, did) ∈ map file_key (FILES t').
Proof.
  intros Hwf. unfold added.
  set (t1 := (exec_statement (sql insert_datasets)
                [VString (Dataset e)] t).2).
  set (did := id_of (Dataset e) (DATASETS t1)).
  set (t2 := (exec_statement (sql insert_blocks) [VString (Block e)] t1).2).
  set (bid := id_of (Block e) (BLOCKS t2)).
  cbv zeta. exists did, bid.
  assert (Hwf1 : wf_tables t1) by (by apply exec_statement_wf).
  assert (Hwf2 : wf_tables t2) by (by apply exec_statement_wf).
  destruct (insert_datasets_tables (Dataset e) t) as (Hd1 & _ & _).
  destruct (insert_blocks_tables (Block e) t1) as (Hb2 & Hd2 & _).
  fold t1 in Hd1. fold t2 in Hb2, Hd2.
  destruct (insert_files_tables (Lfn e) (Pfn e) bid did (Bytes e) (Hash e)
              t2) as (Hf3 & Hd3 & Hb3).
  split; [by apply exec_statement_wf|].
  rewrite Hd3, Hb3, Hd2. split; [|split; [|exact Hf3]].
  - apply id_of_spec; [apply Hwf1 | exact Hd1].
  - apply id_of_spec; [apply Hwf2 | exact Hb2].
Qed.

(** The inserts of a second [Add] of the same entry all meet a
    uniqueness conflict and change nothing. *)
Lemma added_again e t : added e (added e t) = added e t.
Proof.
  unfold added at 1.
  set (t' := added e t).
  assert (Hd : Dataset e ∈ names (DATASETS t') ∧
               Block e ∈ names (BLOCKS t') ∧
               DATASETS t' =
                 DATASETS (exec_statement (sql insert_datasets)
                             [VString (Dataset e)] t).2 ∧
               BLOCKS t' =
                 BLOCKS (exec_statement (sql insert_blocks)
                           [VString (Block e)]
                           (exec_statement (sql insert_datasets)
                              [VString (Dataset e)] t).2).2).
  { subst t'. unfold added.
    set (t1 := (exec_statement (sql insert_datasets)
                  [VString (Dataset e)] t).2).
    set (t2 := (exec_statement (sql insert_blocks)
                  [VString (Block e)] t1).2).
    destruct (insert_datasets_tables (Dataset e) t) as (Hd1 & _ & _).
    destruct (insert_blocks_tables (Block e) t1) as (Hb2 & Hd2 & _).
    fold t1 in Hd1. fold t2 in Hb2, Hd2.
    destruct (insert_files_tables (Lfn e) (Pfn e)
                (id_of (Block e) (BLOCKS t2))
                (id_of (Dataset e) (DATASETS t1)) (Bytes e) (Hash e) t2)
      as (_ & Hd3 & Hb3).
    cbv zeta. rewrite Hd3, Hb3, Hd2. done. }
  destruct Hd as (Hd & Hb & HD & HB).
  rewrite (insert_datasets_again _ _ Hd), (insert_blocks_again _ _ Hb).
  apply insert_files_again. rewrite HD, HB. subst t'. unfold added.
  apply insert_files_tables.
Qed.

(** In well-formed tables that hold the dataset of [e] under [did], its
    block under [bid] and a file with the key (lfn, bid, did), the join
    has exactly one row for the dataset, block and lfn of [e]. *)
Lemma reachable_once e t did bid :
  wf_tables t →
  (did, Dataset e) ∈ DATASETS t → (bid, Block e) ∈ BLOCKS t →
  (Lfn e, bid, did) ∈ map file_key (FILES t) →
  length (filter (same_key e) (catalog_entries t)) = 1%nat.
Proof.
  intros Hwf Hd Hb Hf. unfold catalog_entries.
  rewrite filter_list_bind.
  apply list_elem_of_In, in_map_iff in Hf as (f0 & Hkey & Hf0).
  apply list_elem_of_In in Hf0.
  rewrite (list_bind_ext _
    (λ f, if decide (file_key f = file_key f0)
          then [{| Lfn := f_lfn f; Pfn := f_pfn f; Dataset := Dataset e;
                   Block := Block e; Bytes := f_bytes f;
                   Hash := f_hash f |}]
          else []) (FILES t) (FILES t)); [| |reflexivity].
  - rewrite length_bind_select.
    rewrite (filter_unique file_key (FILES t) f0);
      [reflexivity| |exact Hf0].
    apply Hwf.
  - intros f. destruct (decide (file_key f = file_key f0)) as [Heq|Hne].
    + rewrite Hkey in Heq. unfold file_key in Heq.
      injection Heq as Hl Hbid Hdid. rewrite Hbid, Hdid.
      change (λ b : Z * string, b.1 = bid)
        with (λ b : Z * string, b.1 = (bid, Block e).1).
      rewrite (filter_unique fst (BLOCKS t) (bid, Block e))
        by (apply Hwf || exact Hb).
      change (λ d : Z * string, d.1 = did)
        with (λ d : Z * string, d.1 = (did, Dataset e).1).
      cbn [mbind list_bind app].
      rewrite (filter_unique fst (DATASETS t) (did, Dataset e))
        by (apply Hwf || exact Hd).
      cbn [mbind list_bind app snd]. rewrite ?app_nil_r.
      rewrite filter_cons, decide_True; [reflexivity|].
      unfold same_key; cbn. auto.
    + apply filter_none. intros r Hr [HD [HB HL]].
      apply list_elem_of_bind in Hr
        as ([bi bn] & Hr & [Hbi Hbin]%list_elem_of_filter).
      apply list_elem_of_bind in Hr
        as ([di dn] & Hr & [Hdi Hdin]%list_elem_of_filter).
      apply list_elem_of_singleton in Hr. subst r.
      cbn in HD, HB, HL, Hbi, Hdi.
      subst bn dn. apply Hne. rewrite Hkey. unfold file_key.
      rewrite HL, <- Hbi, <- Hdi.
      rewrite (unique_name (BLOCKS t) bi bid (Block e))
        by (apply Hwf || assumption).
      rewrite (unique_name (DATASETS t) di did (Dataset e))
        by (apply Hwf || assumption).
      reflexivity.
Qed.

End catalog_tables.

(** ** The catalog: Add *)

Section catalog_add.

Import go core core_spec.
Local Open Scope Z_scope.

Lemma DB_Begin_run s :
  DB_Begin s = (Return ({| pending := [] |}, hd nil (driver s)),
                set_driver (tl (driver s)) s).
Proof.
  unfold DB_Begin. rewrite bind_run, driver_call_run. reflexivity.
Qed.

Lemma DB_Exec_run stm args s :
  hd nil (driver s) = nil →
  DB_Exec stm args s =
  (Return (exec_statement stm args (DB s)).1,
   set_DB (exec_statement stm args (DB s)).2
          (set_driver (tl (driver s)) s)).
Proof.
  intros Hd. unfold DB_Exec. rewrite bind_run, driver_call_run, Hd.
  cbv beta iota delta [nil]. rewrite bind_run. cbn [gets set_driver DB].
  destruct (exec_statement stm args (DB s)) as [e t']. reflexivity.
Qed.

Lemma DB_Query_ids_run (k : template) (name : string) s :
  hd nil (driver s) = nil →
  DB_Query (sql k) [VString name] s =
  (Return (query_statement (sql k) [VString name] (DB s)),
   set_driver (tl (driver s)) s).
Proof. intros Hd. rewrite DB_Query_run, Hd. reflexivity. Qed.

Lemma Tx_Commit_run s :
  hd nil (driver s) = nil →
  Tx_Commit {| pending := [] |} s =
  (Return nil, set_driver (tl (driver s)) s).
Proof.
  intros Hd. unfold Tx_Commit. rewrite bind_run, driver_call_run, Hd.
  destruct s; reflexivity.
Qed.

(** The error of an insert that ran is a uniqueness conflict or none. *)
Lemma unless_unique_insert (k : template) args t msg err s :
  match k, args with
  | insert_datasets, [VString _] | insert_blocks, [VString _]
  | insert_files,
    [VString _; VString _; VInt _; VInt _; VInt _; VString _] => True
  | _, _ => False
  end →
  unless_unique (exec_statement (sql k) args t).1 msg err s
  = (Return tt, s).
Proof.
  intros Hshape.
  destruct k; try done;
    repeat (destruct args as [|[?|?] args]; try done);
    unfold exec_statement; cbn [sql tmpl tail];
    case_bool_decide; reflexivity.
Qed.

Lemma scan_ids_run (T : list (Z * string)) (acc : Z) msg s :
  for_fold (map (λ d : Z * string, [VInt d.1]) T) acc
    (λ (did : Z) (row : list value),
       let '(did0, err0) := Scan_int row did in
       check msg err0 ≫= λ _ : (), mret did0) s
  = (Return (fold_left (λ _ r, r.1) T acc), s).
Proof.
  revert acc. induction T as [|r T IH]; intros acc; [reflexivity|].
  cbn [map for_fold fold_left]. change (bind ?m ?k) with (m ≫= k).
  rewrite bind_run. cbn. apply IH.
Qed.

Ltac norm :=
  cbn [hd tl driver set_driver set_DB set_stderr DB DBTYPE DBSQL VERBOSE
       stderr check nil mret go_M_ret ret gets modify fst snd];
  cbv beta iota.

(** [Add] when the templates are loaded and the driver reports no
    failure: it returns [nil] and leaves the tables [added]. *)
Lemma Add_run c e t ty v l :
  ∃ l', Add c e {| DB := t; DBTYPE := ty; DBSQL := loaded_sql;
                   VERBOSE := v; driver := []; stderr := l |}
      = (Return nil,
         {| DB := added e t; DBTYPE := ty; DBSQL := loaded_sql;
            VERBOSE := v; driver := []; stderr := l ++ l' |}).
Proof.
  unfold Add.
  rewrite bind_run, DB_Begin_run. norm.
  rewrite bind_run. norm.
  rewrite bind_run, (getSQL_run _ (sql insert_datasets)) by reflexivity.
  rewrite bind_run, DB_Exec_run by reflexivity. norm.
  rewrite bind_run, unless_unique_insert by exact I.
  rewrite bind_run, (getSQL_run _ (sql id_datasets)) by reflexivity.
  rewrite bind_run, DB_Query_ids_run by reflexivity. norm.
  unfold query_statement at 1. cbn [sql tmpl tail]. norm.
  rewrite bind_run. norm.
  rewrite bind_run, scan_ids_run.
  rewrite bind_run, (getSQL_run _ (sql insert_blocks)) by reflexivity.
  rewrite bind_run, DB_Exec_run by reflexivity. norm.
  rewrite bind_run, unless_unique_insert by exact I.
  rewrite bind_run, (getSQL_run _ (sql id_blocks)) by reflexivity.
  rewrite bind_run, DB_Query_ids_run by reflexivity. norm.
  unfold query_statement at 1. cbn [sql tmpl tail]. norm.
  rewrite bind_run. norm.
  rewrite bind_run, scan_ids_run.
  rewrite bind_run, (getSQL_run _ (sql insert_files)) by reflexivity.
  rewrite bind_run, DB_Exec_run by reflexivity. norm.
  rewrite bind_run, unless_unique_insert by exact I.
  rewrite bind_run, Tx_Commit_run by reflexivity. norm.
  rewrite bind_run. norm.
  destruct (0 <? v).
  - eexists. reflexivity.
  - exists []. rewrite app_nil_r. reflexivity.
Qed.

Lemma DB_Exec_failure_run stm args s msg :
  hd nil (driver s) = Some msg →
  DB_Exec stm args s = (Return (Some msg), set_driver (tl (driver s)) s).
Proof.
  intros Hd. unfold DB_Exec. rewrite bind_run, driver_call_run, Hd.
  reflexivity.
Qed.

(** Whatever the entry and the tables: when the driver fails on the
    insert of the block with a message that is no uniqueness conflict,
    [Add] ends the process and the catalog keeps the result of the
    dataset insert. *)
Lemma Add_block_insert_failure_run c e t ty v l msg :
  strings_Contains msg "UNIQUE" = false →
  ∃ l', Add c e {| DB := t; DBTYPE := ty; DBSQL := loaded_sql;
                   VERBOSE := v;
                   driver := [nil; nil; nil; Some msg]; stderr := l |}
      = (Exit 1,
         {| DB := (exec_statement (sql insert_datasets)
                     [VString (Dataset e)] t).2;
            DBTYPE := ty; DBSQL := loaded_sql; VERBOSE := v; driver := [];
            stderr := l ++ l' |}).
Proof.
  intros Hmsg. unfold Add.
  rewrite bind_run, DB_Begin_run. norm.
  rewrite bind_run. norm.
  rewrite bind_run, (getSQL_run _ (sql insert_datasets)) by reflexivity.
  rewrite bind_run, DB_Exec_run by reflexivity. norm.
  rewrite bind_run, unless_unique_insert by exact I.
  rewrite bind_run, (getSQL_run _ (sql id_datasets)) by reflexivity.
  rewrite bind_run, DB_Query_ids_run by reflexivity. norm.
  unfold query_statement at 1. cbn [sql tmpl tail]. norm.
  rewrite bind_run. norm.
  rewrite bind_run, scan_ids_run.
  rewrite bind_run, (getSQL_run _ (sql insert_blocks)) by reflexivity.
  rewrite bind_run, (DB_Exec_failure_run _ _ _ msg) by reflexivity. norm.
  rewrite bind_run. unfold unless_unique. rewrite Hmsg. cbn [negb check].
  eexists. reflexivity.
Qed.

(** Whatever the entry, the tables and the message: when the driver
    fails on the insert of the file row, [Add] goes on, commits and
    returns [nil]; the catalog has what the dataset and block inserts
    left and no new file row. *)
Lemma Add_file_insert_failure_run c e t ty v l msg :
  ∃ l', Add c e {| DB := t; DBTYPE := ty; DBSQL := loaded_sql;
                   VERBOSE := v;
                   driver := [nil; nil; nil; nil; nil; Some msg];
                   stderr := l |}
      = (Return nil,
         {| DB := (exec_statement (sql insert_blocks) [VString (Block e)]
                     (exec_statement (sql insert_datasets)
                        [VString (Dataset e)] t).2).2;
            DBTYPE := ty; DBSQL := loaded_sql; VERBOSE := v; driver := [];
            stderr := l ++ l' |}).
Proof.
  unfold Add.
  rewrite bind_run, DB_Begin_run. norm.
  rewrite bind_run. norm.
  rewrite bind_run, (getSQL_run _ (sql insert_datasets)) by reflexivity.
  rewrite bind_run, DB_Exec_run by reflexivity. norm.
  rewrite bind_run, unless_unique_insert by exact I.
  rewrite bind_run, (getSQL_run _ (sql id_datasets)) by reflexivity.
  rewrite bind_run, DB_Query_ids_run by reflexivity. norm.
  unfold query_statement at 1. cbn [sql tmpl tail]. norm.
  rewrite bind_run. norm.
  rewrite bind_run, scan_ids_run.
  rewrite bind_run, (getSQL_run _ (sql insert_blocks)) by reflexivity.
  rewrite bind_run, DB_Exec_run by reflexivity. norm.
  rewrite bind_run, unless_unique_insert by exact I.
  rewrite bind_run, (getSQL_run _ (sql id_blocks)) by reflexivity.
  rewrite bind_run, DB_Query_ids_run by reflexivity. norm.
  unfold query_statement at 1. cbn [sql tmpl tail]. norm.
  rewrite bind_run. norm.
  rewrite bind_run, scan_ids_run.
  rewrite bind_run, (getSQL_run _ (sql insert_files)) by reflexivity.
  rewrite bind_run, (DB_Exec_failure_run _ _ _ msg) by reflexivity. norm.
  rewrite bind_run, unless_unique_insert by exact I.
  rewrite bind_run, Tx_Commit_run by reflexivity. norm.
  rewrite bind_run. norm.
  destruct (0 <? v).
  - eexists. reflexivity.
  - exists []. rewrite app_nil_r. reflexivity.
Qed.

(** C1: for every entry, two calls of [Add] in a row both return no
    error, the second changes nothing (its inserts meet uniqueness
    conflicts, which are passed over), and the catalog then has
    exactly one row for the entry's dataset, block and lfn. *)
Theorem Add_twice_one_row c e s :
  wf_tables (DB s) → DBSQL s = loaded_sql → driver s = [] →
  ∃ s1 s2 all s3,
    Add c e s = (Return nil, s1) ∧
    Add c e s1 = (Return nil, s2) ∧
    DB s2 = DB s1 ∧
    Records c no_filter s2 = (Return all, s3) ∧
    length (filter (same_key e) (elems all)) = 1%nat.
Proof.
  destruct s as [t ty sqlmap v d l]. cbn [DB DBSQL driver].
  intros Hwf -> ->.
  destruct (Add_run c e t ty v l) as [l1 H1].
  destruct (Add_run c e (added e t) ty v (l ++ l1)) as [l2 H2].
  rewrite added_again in H2.
  eexists _, _. rewrite H1, H2.
  edestruct (Records_matching c no_filter) as (s3 & H3 & _);
    [| |exists (appended (catalog_entries (added e t))), s3].
  3:{ split; [reflexivity|]. split; [reflexivity|].
      split; [reflexivity|]. split.
      - rewrite H3. cbn [DB]. f_equal. f_equal. f_equal.
        apply filter_all. intros x _. unfold matches, no_filter. cbn. auto.
      - rewrite elems_appended.
        destruct (added_tables e t Hwf) as (did & bid & Hwf' & Hd & Hb & Hf).
        exact (reachable_once e _ did bid Hwf' Hd Hb Hf). }
  - reflexivity.
  - reflexivity.
Qed.

(** C2, at an input where it fails: the driver reports "database is
    locked" on the insert of the block.  [Add] ends the process and the
    dataset row it inserted before stays in the catalog, nothing of
    [Add] having been part of the transaction it began. *)
Theorem Add_exit_keeps_dataset_row :
  ∃ s', Add inputs.tfc inputs.file_a inputs.locked_at_block_insert
        = (Exit 1, s') ∧
        DB s' = {| DATASETS := [(1, "/a/b/c")]; BLOCKS := [];
                   FILES := [] |} ∧
        DB s' ≠ DB inputs.locked_at_block_insert.
Proof.
  eexists. split; [vm_compute; reflexivity|].
  split; [reflexivity|]. discriminate.
Qed.

(** C3, at an input where it fails: the driver reports "disk I/O
    error" on the insert of the file row, which is no uniqueness
    conflict.  [Add] logs nothing, returns [nil], and the catalog has
    the dataset and the block but no file. *)
Theorem Add_ignores_file_insert_failure :
  strings_Contains "disk I/O error" "UNIQUE" = false ∧
  ∃ s', Add inputs.tfc inputs.file_a inputs.io_error_at_file_insert
        = (Return nil, s') ∧
        stderr s' = [] ∧
        DB s' = {| DATASETS := [(1, "/a/b/c")];
                   BLOCKS := [(1, "/a/b/c#1")]; FILES := [] |}.
Proof.
  split; [reflexivity|].
  eexists. split; [vm_compute; reflexivity|].
  split; reflexivity.
Qed.

(** The same failure on the insert of the dataset ends the process. *)
Example Add_dataset_insert_failure_exits :
  (Add inputs.tfc inputs.file_a
     (inputs.process inputs.no_tables [nil; Some "disk I/O error"])).1
  = Exit 1.
Proof. vm_compute. reflexivity. Qed.

End catalog_add.

(** ** Agent registration *)

Section mesh.

Import go server server_spec.
Local Open Scope Z_scope.

Lemma announcement_same W s s' :
  _myself s' = _myself s → _alias s' = _alias s →
  announcement W s' = announcement W s.
Proof. unfold announcement. by intros -> ->. Qed.

(** [register] sends one request, to the peer's registration end-point,
    and leaves the globals alone. *)
Lemma register_run W peer alias agent s :
  ∃ s', register W peer alias agent s
        = (Return (register_result W s peer), s')
      ∧ same_globals s s'
      ∧ sent s' = sent s ++ [(peer +:+ "/register", announcement W s)].
Proof.
  unfold register, register_result, announcement.
  destruct (json_Marshal W {| Agent := _myself s; Alias := _alias s |})
    as [data err] eqn:Hm.
  cbn [fst].
  destruct err as [msg|];
    (destruct (negb (utils.StatusCode
                       (FetchResponse W (peer +:+ "/register") data)
                     =? 200)) eqn:Hc;
     eexists; (split;
     [ cbv [mbind go_M_bind bind mret go_M_ret ret log_Printf log_Println
            modify gets utils_FetchResponse];
       cbn [_myself _alias set_stderr set_sent sent];
       rewrite Hm; cbn [_myself _alias set_stderr set_sent sent];
       rewrite Hc; reflexivity
     | split; [done | reflexivity] ])).
Qed.

(** The merge loop adds what the local table does not have. *)
Lemma merge_run (l : list (string * string)) s :
  for_range l (λ kv : string * string,
    agents ← gets _agents;
    match agents !! kv.1 with
    | None => modify (λ s, set_agents (<[kv.1 := kv.2]> (_agents s)) s)
    | Some _ => mret tt
    end) s
  = (Return tt, set_agents (_agents s ∪ list_to_map l) s).
Proof.
  revert s. induction l as [|[k v] l IH]; intros s.
  - cbn [for_range list_to_map foldr]. rewrite (right_id_L ∅ (∪)).
    destruct s; reflexivity.
  - cbn [for_range]. change (bind ?m ?k) with (m ≫= k).
    rewrite bind_run, bind_run. cbn [gets fst snd].
    destruct (_agents s !! k) as [u|] eqn:Hk.
    + cbn [mret go_M_ret ret]. rewrite IH. do 2 f_equal.
      cbn [list_to_map foldr uncurry fst snd].
      apply map_eq. intros i. rewrite !lookup_union.
      destruct (decide (k = i)) as [<-|Hne].
      * rewrite Hk, lookup_insert_eq. by destruct (list_to_map l !! k).
      * by rewrite lookup_insert_ne.
    + cbn [modify]. rewrite IH.
      cbn [set_agents _agents _myself _alias sent stderr].
      unfold set_agents. f_equal. f_equal.
      cbn [list_to_map foldr uncurry fst snd].
      rewrite <- insert_union_l. by rewrite insert_union_r.
Qed.

(** The last loop sends one registration to every entry that is
    neither the bootstrap peer nor the agent itself. *)
Lemma announce_run W aName alias myself (l : list (string * string)) s :
  ∃ s', for_range l (λ aa : string * string,
          let '(alias', agent) := aa in
          if String.eqb agent aName || String.eqb alias' alias
          then mret tt
          else _ ← register W agent alias myself; mret tt) s
        = (Return tt, s')
      ∧ same_globals s s'
      ∧ sent s' = sent s ++
          map (λ aa : string * string,
                 (aa.2 +:+ "/register", announcement W s))
              (filter (other_peer aName alias) l).
Proof.
  revert s. induction l as [|[a u] l IH]; intros s.
  - exists s. cbn. rewrite app_nil_r. done.
  - cbn [for_range]. change (bind ?m ?k) with (m ≫= k). rewrite bind_run.
    rewrite filter_cons.
    destruct (String.eqb_spec u aName) as [Hu|Hu];
      [|destruct (String.eqb_spec a alias) as [Ha|Ha]]; cbn [orb].
    + rewrite decide_False by (unfold other_peer; cbn; tauto).
      cbn [mret go_M_ret ret]. apply IH.
    + rewrite decide_False by (unfold other_peer; cbn; tauto).
      cbn [mret go_M_ret ret]. apply IH.
    + rewrite decide_True by (unfold other_peer; cbn; tauto).
      rewrite bind_run.
      destruct (register_run W u alias myself s) as (s1 & -> & Hg1 & Hs1).
      cbn [mret go_M_ret ret].
      destruct (IH s1) as (s' & -> & Hg' & Hs').
      exists s'. split; [reflexivity|]. split.
      * destruct Hg1 as (? & ? & ?), Hg' as (? & ? & ?).
        unfold same_globals. split_and!; congruence.
      * rewrite Hs', Hs1. cbn [map fst snd]. rewrite <- app_assoc.
        do 2 f_equal. apply map_ext. intros x.
        unfold announcement. destruct Hg1 as (-> & -> & _). reflexivity.
Qed.

Lemma nonempty_length (a : string) :
  a ≠ "" →
  negb (String.eqb a "") && (0 <? Z.of_nat (String.length a)) = true.
Proof. destruct a; [done|]. intros _. reflexivity. Qed.

Lemma fatal_run (args : list logarg) s :
  log_Fatal (A:=unit) args s
  = (Exit 1, set_stderr (stderr s ++ [Print args]) s).
Proof. reflexivity. Qed.

(** [registerAtAgents] when the agent's alias is taken. *)
Lemma registerAtAgents_taken W aName s url :
  _agents s !! _alias s = Some url →
  ∃ l, registerAtAgents W aName s
       = (Exit 1, set_stderr (stderr s ++ l) s).
Proof.
  intros Htaken. unfold registerAtAgents.
  do 3 (rewrite bind_run; cbn [gets]).
  rewrite bind_run, Htaken, fatal_run. eexists. reflexivity.
Qed.

(** [registerAtAgents] when the agent's alias is free, path by path. *)
Lemma registerAtAgents_run W aName s :
  _agents s !! _alias s = None →
  let local := <[_alias s := _myself s]> (_agents s) in
  let hello := (aName +:+ "/register", announcement W s) in
  let announce (m : gmap string string) :=
    map (λ aa : string * string, (aa.2 +:+ "/register", announcement W s))
        (filter (other_peer aName (_alias s)) (range W m)) in
  if decide (aName = "") then
    ∃ s', registerAtAgents W aName s = (Return tt, s') ∧
          _agents s' = local ∧ sent s' = sent s ++ announce local
  else
    match register_result W s aName with
    | Some _ =>
        ∃ s', registerAtAgents W aName s = (Exit 1, s') ∧
              _agents s' = local ∧ sent s' = sent s ++ [hello]
    | None =>
        let answer :=
          json_Unmarshal W
            (utils.Data (FetchResponse W (aName +:+ "/agents") "")) in
        let final := match answer.2 with
                     | None => local ∪ list_to_map (range W answer.1)
                     | Some _ => local
                     end in
        ∃ s', registerAtAgents W aName s = (Return tt, s') ∧
              _agents s' = final ∧
              sent s' = sent s ++ [hello; (aName +:+ "/agents", "")]
                               ++ announce final
    end.
Proof.
  intros Hfree local hello announce. unfold registerAtAgents.
  do 3 (rewrite bind_run; cbn [gets]).
  rewrite bind_run, Hfree. cbn [mret go_M_ret ret].
  rewrite bind_run. cbn [modify].
  set (s1 := set_agents (<[_alias s:=_myself s]> (_agents s)) s).
  rewrite bind_run.
  destruct (decide (aName = "")) as [->|Hne].
  - cbn [String.eqb negb andb mret go_M_ret ret].
    rewrite bind_run. cbn [gets].
    destruct (announce_run W "" (_alias s) (_myself s)
                (range W (_agents s1)) s1)
      as (s' & Hrun & (_ & _ & Hag) & Hsent).
    exists s'. split; [exact Hrun|]. split; [exact Hag | exact Hsent].
  - rewrite (nonempty_length aName Hne). rewrite bind_run.
    destruct (register_run W aName (_alias s) (_myself s) s1)
      as (s2 & -> & (Hm2 & Ha2 & Hag2) & Hs2).
    change (register_result W s1 aName) with (register_result W s aName).
    change (announcement W s1) with (announcement W s) in Hs2.
    destruct (register_result W s aName) as [msg|] eqn:Hreg.
    + rewrite bind_run, fatal_run. eexists. split; [reflexivity|].
      split; [exact Hag2 | exact Hs2].
    + rewrite bind_run. cbn [mret go_M_ret ret]. rewrite bind_run.
      unfold utils_FetchResponse at 1. rewrite bind_run.
      cbn [modify mret go_M_ret ret].
      set (s3 := set_sent (sent s2 ++ [(aName +:+ "/agents", "")]) s2).
      destruct (json_Unmarshal W
                  (utils.Data (FetchResponse W (aName +:+ "/agents") "")))
        as [remoteAgents [e|]] eqn:Hjson; cbn [fst snd].
      * cbn [mret go_M_ret ret gets].
        destruct (announce_run W aName (_alias s) (_myself s)
                    (range W (_agents s3)) s3)
          as (s' & Hrun & (_ & _ & Hag) & Hsent).
        exists s'. split; [exact Hrun|].
        assert (_agents s3 = local) as Hl3 by exact Hag2.
        split; [by rewrite Hag|].
        rewrite Hsent, Hl3.
        rewrite (announcement_same W s s3) by assumption.
        subst s3. cbn [sent set_sent]. rewrite Hs2.
        rewrite <- !app_assoc. reflexivity.
      * rewrite merge_run. cbn [gets _agents set_agents].
        set (s4 := set_agents
                     (_agents s3 ∪ list_to_map (range W remoteAgents)) s3).
        destruct (announce_run W aName (_alias s) (_myself s)
                    (range W (_agents s4)) s4)
          as (s' & Hrun & (_ & _ & Hag) & Hsent).
        exists s'. split; [exact Hrun|].
        assert (_agents s4 =
                local ∪ list_to_map (range W remoteAgents)) as Hl4.
        { subst s4 s3. cbn [_agents set_agents set_sent]. by rewrite Hag2. }
        split; [by rewrite Hag|].
        rewrite Hsent, Hl4.
        rewrite (announcement_same W s s4) by assumption.
        subst s4 s3. cbn [sent set_sent set_agents]. rewrite Hs2.
        rewrite <- !app_assoc. reflexivity.
Qed.

(** C6: when the agent's own alias is already in its table,
    [registerAtAgents] ends the process, with the table as it was and
    nothing sent; when the alias is free, the pair (alias, own url) is
    in the table however the call ends, and nothing that was in the
    table is lost or overwritten. *)
Theorem registerAtAgents_own_alias W aName s :
  (is_Some (_agents s !! _alias s) →
     ∃ s', registerAtAgents W aName s = (Exit 1, s') ∧
           _agents s' = _agents s ∧ sent s' = sent s) ∧
  (_agents s !! _alias s = None →
     ∀ r s', registerAtAgents W aName s = (r, s') →
       _agents s' !! _alias s = Some (_myself s) ∧
       <[_alias s := _myself s]> (_agents s) ⊆ _agents s').
Proof.
  split.
  - intros [url Htaken].
    destruct (registerAtAgents_taken W aName s url Htaken) as [l ->].
    eexists. split; [reflexivity|]. split; reflexivity.
  - intros Hfree r s' Hrun.
    pose proof (registerAtAgents_run W aName s Hfree) as Hpaths.
    cbv zeta in Hpaths.
    assert (Hsub : <[_alias s := _myself s]> (_agents s) ⊆ _agents s').
    { destruct (decide (aName = "")).
      - destruct Hpaths as (s1 & H1 & Hag & _).
        rewrite Hrun in H1. injection H1 as _ <-. by rewrite Hag.
      - destruct (register_result W s aName).
        + destruct Hpaths as (s1 & H1 & Hag & _).
          rewrite Hrun in H1. injection H1 as _ <-. by rewrite Hag.
        + destruct Hpaths as (s1 & H1 & Hag & _).
          rewrite Hrun in H1. injection H1 as _ <-. rewrite Hag.
          destruct (json_Unmarshal W _).2; [done|].
          apply map_union_subseteq_l. }
    split; [|exact Hsub].
    eapply lookup_weaken; [|exact Hsub]. apply lookup_insert_eq.
Qed.

(** C7: in a join through a bootstrap peer that accepted the
    registration and answered with its table, every alias of that table
    which the local table does not have is added with the url the peer
    gave, and every alias the local table has keeps its local url;
    after the two requests to the bootstrap peer the agent sends its
    own (url, alias) to exactly the entries of the table that have
    neither the url of the bootstrap peer nor its own alias. *)
Theorem join_merges_then_announces W aName remote s :
  range_sound W →
  _agents s !! _alias s = None →
  aName ≠ "" →
  register_result W s aName = nil →
  json_Unmarshal W (utils.Data (FetchResponse W (aName +:+ "/agents") ""))
    = (remote, nil) →
  let local := <[_alias s := _myself s]> (_agents s) in
  ∃ s' announced,
    registerAtAgents W aName s = (Return tt, s') ∧
    (∀ k, _agents s' !! k = match local !! k with
                            | Some url => Some url
                            | None => remote !! k
                            end) ∧
    sent s' = sent s
              ++ [(aName +:+ "/register", announcement W s);
                  (aName +:+ "/agents", "")]
              ++ map (λ aa : string * string,
                        (aa.2 +:+ "/register", announcement W s))
                     announced ∧
    announced ≡ₚ filter (other_peer aName (_alias s))
                        (map_to_list (_agents s')).
Proof.
  intros Hrange Hfree Hne Hreg Hjson local.
  pose proof (registerAtAgents_run W aName s Hfree) as Hpaths.
  cbv zeta in Hpaths. rewrite decide_False in Hpaths by exact Hne.
  rewrite Hreg, Hjson in Hpaths. cbn [fst snd nil] in Hpaths.
  destruct Hpaths as (s' & Hrun & Hag & Hsent).
  assert (list_to_map (range W remote) = remote) as Hremote.
  { rewrite <- (list_to_map_to_list remote) at 2.
    apply list_to_map_proper; [|apply Hrange].
    rewrite (Hrange remote). apply NoDup_fst_map_to_list. }
  rewrite Hremote in Hag, Hsent.
  exists s', (filter (other_peer aName (_alias s))
                     (range W (local ∪ remote))).
  split; [exact Hrun|]. split; [|split].
  - intros k. rewrite Hag, lookup_union. fold local.
    destruct (local !! k), (remote !! k); reflexivity.
  - exact Hsent.
  - rewrite Hag. by rewrite (Hrange (local ∪ remote)).
Qed.

End mesh.

(** ** The properties at concrete inputs *)

Section witnesses.

Import inputs.
Local Open Scope Z_scope.

Lemma placeholder_by_dialect_witness :
  core.placeholder "oci8" "lfn" = ":lfn" ∧
  core.placeholder "PostgreSQL" "lfn" = "$lfn" ∧
  core.placeholder "sqlite3" "lfn" = "?".
Proof.
  split; [|split].
  - apply (proj1 (placeholder_by_dialect "oci8" "lfn")).
    right. reflexivity.
  - apply (proj1 (proj2 (placeholder_by_dialect "PostgreSQL" "lfn"))).
    reflexivity.
  - apply (proj2 (proj2 (placeholder_by_dialect "sqlite3" "lfn")));
      discriminate.
Defined.

Lemma no_tables_wf : core_spec.wf_tables no_tables.
Proof. split; apply NoDup_nil_2. Qed.

Lemma Add_twice_one_row_witness :
  ∃ s1 s2 all s3,
    core.Add tfc file_a (process no_tables []) = (go.Return go.nil, s1) ∧
    core.Add tfc file_a s1 = (go.Return go.nil, s2) ∧
    core.DB s2 = core.DB s1 ∧
    core.Records tfc core_spec.no_filter s2 = (go.Return all, s3) ∧
    length (filter (core_spec.same_key file_a) (go.elems all)) = 1%nat.
Proof.
  apply (Add_twice_one_row tfc file_a (process no_tables [])).
  - exact no_tables_wf.
  - reflexivity.
  - reflexivity.
Defined.

Lemma Records_filter_witness :
  ∃ out s',
    core.Records tfc by_block (process two_files []) = (go.Return out, s') ∧
    core.DB s' = two_files ∧
    out = go.appended (filter (core_spec.matches by_block)
                              (core_spec.catalog_entries two_files)) ∧
    go.elems out = filter (core_spec.matches by_block)
                          (core_spec.catalog_entries two_files) ∧
    (∀ e, e ∈ go.elems out ↔
          e ∈ core_spec.catalog_entries two_files ∧
          core_spec.matches by_block e) ∧
    (core.TransferRequest.File by_block = "" →
     core.TransferRequest.Block by_block = "" →
     core.TransferRequest.Dataset by_block = "" →
     go.elems out = core_spec.catalog_entries two_files).
Proof.
  apply (Records_filter tfc by_block (process two_files [])).
  - reflexivity.
  - reflexivity.
Defined.

Lemma two_files_entries :
  core_spec.catalog_entries two_files = [file_a; file_b].
Proof. vm_compute. reflexivity. Qed.

Lemma Records_empty_on_failure_witness :
  (∃ out s',
     core.Records tfc by_absent_block
       (process two_files [Some "database is locked"])
     = (go.Return out, s') ∧
     core.DB s' = two_files ∧ out = go.Slice []) ∧
  (∃ out s',
     core.Records tfc by_absent_block (process two_files [])
     = (go.Return out, s') ∧
     core.DB s' = two_files ∧ out = go.NilSlice).
Proof.
  split.
  - destruct (Records_empty_on_failure tfc by_absent_block
                (process two_files [Some "database is locked"])
                (core_spec.sql core.files_blocks_datasets))
      as (out & s' & Hrun & Hdb & Hfail & _).
    + reflexivity.
    + exists out, s'. split; [exact Hrun|]. split; [exact Hdb|].
      apply (Hfail "database is locked"). reflexivity.
  - destruct (Records_empty_on_failure tfc by_absent_block
                (process two_files [])
                (core_spec.sql core.files_blocks_datasets))
      as (out & s' & Hrun & Hdb & _ & Hnone).
    + reflexivity.
    + exists out, s'. split; [exact Hrun|]. split; [exact Hdb|].
      apply Hnone; [reflexivity | reflexivity |].
      intros e He (_ & Hblock & _). cbn [core.DB process] in He.
      rewrite two_files_entries in He.
      repeat (apply elem_of_cons in He as [->|He];
              [destruct Hblock as [Hblock|Hblock]; discriminate Hblock|]).
      by apply elem_of_nil in He.
Defined.

(** C5, as the claim states it, does not hold: with the same filter on
    the same tables, a caller tells the result of a failed query from
    that of a query without a match.  The first is a slice that is not
    nil, the second is the nil slice. *)
Lemma Records_failure_differs_from_no_match :
  (core.Records tfc by_absent_block
     (process two_files [Some "database is locked"])).1
  = go.Return (go.Slice []) ∧
  (core.Records tfc by_absent_block (process two_files [])).1
  = go.Return go.NilSlice ∧
  (core.Records tfc by_absent_block
     (process two_files [Some "database is locked"])).1
  ≠ (core.Records tfc by_absent_block (process two_files [])).1.
Proof.
  assert ((core.Records tfc by_absent_block
             (process two_files [Some "database is locked"])).1
          = go.Return (go.Slice [])) as Hfail
    by (vm_compute; reflexivity).
  assert ((core.Records tfc by_absent_block (process two_files [])).1
          = go.Return go.NilSlice) as Hnone
    by (vm_compute; reflexivity).
  rewrite Hfail, Hnone. repeat split. discriminate.
Qed.

Lemma registerAtAgents_own_alias_witness :
  (∃ s', server.registerAtAgents net "http://a"
           (agent_b {["B" := "http://old"]}) = (go.Exit 1, s') ∧
         server._agents s' = {["B" := "http://old"]} ∧
         server.sent s' = []) ∧
  (∀ r s', server.registerAtAgents net "http://a" (agent_b ∅) = (r, s') →
     server._agents s' !! "B" = Some "http://b").
Proof.
  split.
  - destruct (proj1 (registerAtAgents_own_alias net "http://a"
                       (agent_b {["B" := "http://old"]})))
      as (s' & Hrun & Hag & Hsent).
    + exists "http://old". reflexivity.
    + exists s'. split; [exact Hrun|]. split; [exact Hag | exact Hsent].
  - intros r s' Hrun.
    destruct (proj2 (registerAtAgents_own_alias net "http://a" (agent_b ∅)))
      with r s' as [Hself _].
    + reflexivity.
    + exact Hrun.
    + exact Hself.
Defined.

Lemma join_merges_then_announces_witness :
  ∃ s' announced,
    server.registerAtAgents net "http://a" (agent_b ∅)
      = (go.Return tt, s') ∧
    server._agents s' !! "C" = Some "http://c" ∧
    server._agents s' !! "B" = Some "http://b" ∧
    server.sent s' =
      [("http://a/register", "{http://b,B}"); ("http://a/agents", "")]
      ++ map (λ aa : string * string, (aa.2 +:+ "/register", "{http://b,B}"))
             announced ∧
    announced ≡ₚ filter (server_spec.other_peer "http://a" "B")
                        (map_to_list (server._agents s')).
Proof.
  destruct (join_merges_then_announces net "http://a"
              (list_to_map [("A", "http://a"); ("C", "http://c");
                            ("B", "http://elsewhere")])
              (agent_b ∅))
    as (s' & announced & Hrun & Hmerge & Hsent & Hperm).
  - intros m. reflexivity.
  - reflexivity.
  - discriminate.
  - reflexivity.
  - reflexivity.
  - exists s', announced. split; [exact Hrun|].
    split; [exact (Hmerge "C")|]. split; [exact (Hmerge "B")|].
    split; [exact Hsent | exact Hperm].
Defined.

End witnesses.

(** ** utils: lists as sets *)

Section list_utils.

Import utils.
Local Open Scope Z_scope.

Lemma int_wrap_small (x : Z) : - 2 ^ 63 ≤ x < 2 ^ 63 → int_wrap x = x.
Proof.
  intros Hx. unfold int_wrap.
  rewrite Z.mod_small by lia. lia.
Qed.

Lemma FindInList_loop (a : string) (arr : list string) :
  FindInList a arr = bool_decide (a ∈ arr).
Proof.
  induction arr as [|e rest IH]; cbn [FindInList].
  - symmetry. apply bool_decide_eq_false. by intros ?%elem_of_nil.
  - destruct (String.eqb_spec e a) as [->|Hne].
    + symmetry. apply bool_decide_eq_true. by left.
    + rewrite IH. apply bool_decide_ext. rewrite elem_of_cons.
      split; [auto | intros [Heq|Hin]; [congruence | exact Hin]].
Qed.

(** X1: [FindInList] says whether the string is an element of the
    slice; on the empty (or nil) slice it says no. *)
Theorem FindInList_elem_of (a : string) (arr : list string) :
  (FindInList a arr = true ↔ a ∈ arr) ∧ FindInList a [] = false.
Proof.
  split; [|reflexivity]. rewrite FindInList_loop. apply bool_decide_eq_true.
Qed.

(** The counter of [InList] after the loop: the number of elements equal
    to [a], added to what it started with. *)
Lemma InList_counter (a : string) (l : list string) (c : Z) :
  0 ≤ c → c + Z.of_nat (length l) < 2 ^ 63 →
  fold_left (λ check b, if String.eqb b a then int_wrap (check + 1)
                        else check) l c
  = c + Z.of_nat (length (filter (λ b, b = a) l)).
Proof.
  revert c. induction l as [|b l IH]; intros c Hc Hlen; cbn [fold_left].
  - rewrite filter_nil. cbn [length]. lia.
  - cbn [length] in Hlen. rewrite filter_cons.
    destruct (String.eqb_spec b a) as [->|Hne].
    + rewrite decide_True by reflexivity.
      rewrite int_wrap_small by lia. rewrite IH by lia. cbn [length]. lia.
    + rewrite decide_False by exact Hne. apply IH; lia.
Qed.

Lemma InList_elem_of (a : string) (l : list string) :
  Z.of_nat (length l) < 2 ^ 63 → InList a l = bool_decide (a ∈ l).
Proof.
  intros Hlen. unfold InList. rewrite InList_counter by lia.
  destruct (filter (λ b, b = a) l) as [|x k] eqn:Hf.
  - cbn. symmetry. apply bool_decide_eq_false. intros Hin.
    assert (a ∈ filter (λ b, b = a) l) as Hin'
      by (apply list_elem_of_filter; auto).
    rewrite Hf in Hin'. by apply elem_of_nil in Hin'.
  - assert (x ∈ filter (λ b, b = a) l) as [-> Hin]%list_elem_of_filter
      by (rewrite Hf; left).
    rewrite bool_decide_eq_true_2 by exact Hin.
    cbn [length]. destruct (0 + Z.of_nat (S (length k)) =? 0) eqn:Hz;
      [apply Z.eqb_eq in Hz; lia | reflexivity].
Qed.

(** X2: on a slice of fewer than 2^63 elements, as every slice is,
    [InList] says whether the string is an element, and so agrees with
    [FindInList]. *)
Theorem InList_elem_of_FindInList (a : string) (l : list string) :
  Z.of_nat (length l) < 2 ^ 63 →
  (InList a l = true ↔ a ∈ l) ∧ InList a l = FindInList a l.
Proof.
  intros Hlen. rewrite (InList_elem_of a l Hlen). split.
  - apply bool_decide_eq_true.
  - symmetry. apply FindInList_loop.
Qed.

(** The loop of [List2Set] from an accumulator [out]: every key not yet
    in [out] is appended once, in the order of its first occurrence. *)
Lemma List2Set_loop (arr out : list string) :
  Z.of_nat (length out + length arr) < 2 ^ 63 →
  fold_left (λ out key, if negb (InList key out) then out ++ [key] else out)
            arr out
  = fold_left (λ out key, if bool_decide (key ∈ out) then out
                          else out ++ [key]) arr out.
Proof.
  revert out. induction arr as [|key arr IH]; intros out Hlen;
    [reflexivity|].
  cbn [fold_left length] in *.
  rewrite InList_elem_of by lia.
  destruct (bool_decide (key ∈ out)); cbn [negb].
  - apply IH. lia.
  - apply IH. rewrite length_app. cbn [length]. lia.
Qed.

Lemma dedup_loop_spec (arr out : list string) :
  NoDup out →
  let res := fold_left (λ out key, if bool_decide (key ∈ out) then out
                                   else out ++ [key]) arr out in
  NoDup res ∧ (∀ x, x ∈ res ↔ x ∈ out ∨ x ∈ arr) ∧
  (length res ≤ length out + length arr)%nat.
Proof.
  revert out. induction arr as [|key arr IH]; intros out Hnd;
    cbn [fold_left]; cbv zeta.
  - split; [exact Hnd|]. split; [|lia].
    intros x. rewrite elem_of_nil. tauto.
  - case_bool_decide as Hin.
    + destruct (IH out Hnd) as (H1 & H2 & H3). split; [exact H1|].
      split; [|cbn [length]; lia].
      intros x. rewrite H2, elem_of_cons.
      split; [tauto | intros [?|[->|?]]; auto].
    + assert (NoDup (out ++ [key])) as Hnd' by (by apply NoDup_snoc).
      destruct (IH (out ++ [key]) Hnd') as (H1 & H2 & H3).
      split; [exact H1|]. split.
      * intros x. rewrite H2, elem_of_app, list_elem_of_singleton,
          elem_of_cons. tauto.
      * rewrite length_app in H3. cbn [length] in *. lia.
Qed.

(** X3: [List2Set] returns a slice without duplicates that has exactly
    the elements of its argument. *)
Theorem List2Set_NoDup_same_elements (arr : list string) :
  Z.of_nat (length arr) < 2 ^ 63 →
  NoDup (List2Set arr) ∧ ∀ x, x ∈ List2Set arr ↔ x ∈ arr.
Proof.
  intros Hlen. unfold List2Set. rewrite List2Set_loop by (cbn; lia).
  destruct (dedup_loop_spec arr [] (NoDup_nil_2)) as (H1 & H2 & _).
  split; [exact H1|]. intros x. rewrite H2, elem_of_nil. tauto.
Qed.

Lemma dedup_loop_cons (x : string) (arr out : list string) :
  fold_left (λ out key, if bool_decide (key ∈ out) then out
                        else out ++ [key]) arr (x :: out)
  = x :: fold_left (λ out key, if bool_decide (key ∈ out) then out
                               else out ++ [key])
                   (filter (λ y, y ≠ x) arr) out.
Proof.
  revert out. induction arr as [|key arr IH]; intros out; [reflexivity|].
  cbn [fold_left]. rewrite filter_cons.
  destruct (decide (key = x)) as [->|Hne].
  - rewrite bool_decide_eq_true_2 by left.
    rewrite decide_False by (intros Hn; by apply Hn). apply IH.
  - rewrite decide_True by exact Hne. cbn [fold_left].
    destruct (decide (key ∈ out)) as [Hin|Hin].
    + rewrite !bool_decide_eq_true_2 by (exact Hin || by right). apply IH.
    + rewrite !bool_decide_eq_false_2;
        [apply (IH (out ++ [key])) | exact Hin |].
      intros [?|?]%elem_of_cons; [congruence | auto].
Qed.

(** X4: [List2Set] keeps the first occurrence of every element, in
    order: the result for a slice that starts with [x] is [x] followed by
    the result for the rest without its copies of [x]. *)
Theorem List2Set_first_occurrences (x : string) (arr : list string) :
  Z.of_nat (length (x :: arr)) < 2 ^ 63 →
  List2Set (x :: arr) = x :: List2Set (filter (λ y, y ≠ x) arr).
Proof.
  intros Hlen. cbn [length] in Hlen.
  pose proof (length_filter (λ y, y ≠ x) arr) as Hf.
  unfold List2Set. rewrite !List2Set_loop by (cbn [length]; lia).
  cbn [fold_left]. rewrite bool_decide_eq_false_2 by (by intros ?%elem_of_nil).
  cbn [app]. apply dedup_loop_cons.
Qed.



(** X6: [MapKeys] returns every key of the map exactly once, in the
    order in which the map is walked. *)
Theorem MapKeys_keys {V : Type} (range : gmap string V → list (string * V))
    (rec : gmap string V) :
  range rec ≡ₚ map_to_list rec →
  MapKeys range rec = (range rec).*1 ∧
  NoDup (MapKeys range rec) ∧
  length (MapKeys range rec) = size rec ∧
  ∀ k, k ∈ MapKeys range rec ↔ is_Some (rec !! k).
Proof.
  intros Hperm.
  assert (Hloop : ∀ (l : list (string * V)) keys,
            fold_left (λ keys kv, keys ++ [kv.1]) l keys = keys ++ l.*1).
  { induction l as [|kv l IH]; intros keys; cbn [fold_left fmap list_fmap].
    - by rewrite app_nil_r.
    - rewrite IH, <- app_assoc. reflexivity. }
  unfold MapKeys. rewrite Hloop. cbn [app].
  split; [reflexivity|]. split; [|split].
  - rewrite Hperm. apply NoDup_fst_map_to_list.
  - rewrite Hperm, length_fmap. apply length_map_to_list.
  - intros k. rewrite Hperm, list_elem_of_fmap. split.
    + intros ([k' v] & -> & Hin). apply elem_of_map_to_list in Hin. eauto.
    + intros [v Hv]. exists (k, v). split; [reflexivity|].
      by apply elem_of_map_to_list.
Qed.

End list_utils.

(** ** The catalog: every run *)

Section catalog_runs.

Import go core core_spec core_logic.
Local Open Scope Z_scope.

Lemma hoare_ret {A} (I : state → Prop) (Q : A → Prop) (a : A) :
  Q a → hoare I Q (mret a).
Proof. intros HQ s Hs. split; [exact Hs | exact HQ]. Qed.

Lemma hoare_bind {A B} (I : state → Prop) (Q1 : A → Prop) (Q : B → Prop)
    (m : M state A) (k : A → M state B) :
  hoare I Q1 m → (∀ a, Q1 a → hoare I Q (k a)) → hoare I Q (m ≫= k).
Proof.
  intros Hm Hk s Hs. rewrite bind_run.
  destruct (Hm s Hs) as [HI HQ]. destruct (m s) as [[a|c] s1]; cbn in *.
  - exact (Hk a HQ s1 HI).
  - split; assumption.
Qed.

Lemma hoare_weaken {A} (I : state → Prop) (Q Q' : A → Prop) (m : M state A) :
  hoare I Q m → (∀ a, Q a → Q' a) → hoare I Q' m.
Proof.
  intros Hm Himp s Hs. destruct (Hm s Hs) as [HI HQ]. split; [exact HI|].
  destruct (m s).1; auto.
Qed.

Lemma hoare_gets {A} (I : state → Prop) (f : state → A) :
  hoare I (λ _, True) (gets f).
Proof. intros s Hs. split; [exact Hs | exact Logic.I]. Qed.

Lemma hoare_modify (I : state → Prop) (f : state → state) :
  (∀ s, I s → I (f s)) → hoare I (λ _, True) (modify f).
Proof. intros Hf s Hs. split; [exact (Hf s Hs) | exact Logic.I]. Qed.

Lemma hoare_exit {A} (I : state → Prop) (Q : A → Prop) :
  hoare I Q (exit 1).
Proof. intros s Hs. split; [exact Hs | reflexivity]. Qed.

Section stable_invariant.

Context (I : state → Prop) (Hio : io_stable I).

Lemma hoare_log_Println args : hoare I (λ _, True) (log_Println args).
Proof. apply hoare_modify. intros s Hs. by apply Hio. Qed.

Lemma hoare_log_Printf format args :
  hoare I (λ _, True) (log_Printf format args).
Proof. apply hoare_modify. intros s Hs. by apply Hio. Qed.

Lemma hoare_log_Fatal {A} (Q : A → Prop) args : hoare I Q (log_Fatal args).
Proof.
  unfold log_Fatal. eapply hoare_bind.
  - apply hoare_modify. intros s Hs. by apply Hio.
  - intros _ _. apply hoare_exit.
Qed.

Lemma hoare_log_Fatalf {A} (Q : A → Prop) format args :
  hoare I Q (log_Fatalf format args).
Proof.
  unfold log_Fatalf. eapply hoare_bind.
  - apply hoare_log_Printf.
  - intros _ _. apply hoare_exit.
Qed.

Lemma hoare_check msg err : hoare I (λ _, True) (check msg err).
Proof.
  destruct err; cbn [check]; [apply hoare_log_Fatalf | by apply hoare_ret].
Qed.

Lemma hoare_unless_unique e msg err :
  hoare I (λ _, True) (unless_unique e msg err).
Proof.
  unfold unless_unique. destruct e as [text|]; [|by apply hoare_ret].
  destruct (negb _); [apply hoare_check | by apply hoare_ret].
Qed.

Lemma hoare_getSQL key : hoare I (λ _, True) (getSQL key).
Proof.
  unfold getSQL. eapply hoare_bind; [apply hoare_gets|].
  intros dbsql _. destruct (dbsql !! key);
    [by apply hoare_ret | apply hoare_log_Fatal].
Qed.

Lemma hoare_getSQL_missing key :
  (∀ s, I s → DBSQL s !! key = None) →
  hoare I (λ _, False) (getSQL key).
Proof.
  intros Hmiss s Hs. unfold getSQL. rewrite bind_run. cbn [gets].
  rewrite (Hmiss s Hs). split; [by apply Hio | reflexivity].
Qed.

Lemma hoare_driver_call : hoare I (λ _, True) driver_call.
Proof.
  intros s Hs. rewrite driver_call_run. split; [by apply Hio | exact Logic.I].
Qed.

Lemma hoare_DB_Begin : hoare I (λ _, True) DB_Begin.
Proof.
  unfold DB_Begin. eapply hoare_bind; [apply hoare_driver_call|].
  intros e _. by apply hoare_ret.
Qed.

Lemma hoare_DB_Query stm args : hoare I (λ _, True) (DB_Query stm args).
Proof.
  unfold DB_Query. eapply hoare_bind; [apply hoare_driver_call|].
  intros [msg|] _; [by apply hoare_ret|].
  eapply hoare_bind; [apply hoare_gets|]. intros t _. by apply hoare_ret.
Qed.

Lemma hoare_for_fold {A B} (xs : list A) (acc : B) (body : B → A → M state B) :
  (∀ acc x, hoare I (λ _, True) (body acc x)) →
  hoare I (λ _, True) (for_fold xs acc body).
Proof.
  intros Hbody. revert acc. induction xs as [|x xs IH]; intros acc;
    cbn [for_fold].
  - by apply hoare_ret.
  - change (bind ?m ?k) with (m ≫= k). eapply hoare_bind; [apply Hbody|].
    intros acc' _. apply IH.
Qed.

Context (Hexec : exec_stable I).

Lemma hoare_DB_Exec stm args : hoare I (λ _, True) (DB_Exec stm args).
Proof.
  intros s Hs. unfold DB_Exec. rewrite bind_run, driver_call_run.
  destruct (hd nil (driver s)) as [msg|]; cbv beta iota.
  - split; [by apply Hio | exact Logic.I].
  - rewrite bind_run. cbn [gets DB set_driver].
    pose proof (Hexec stm args _ (stable_driver I Hio (tl (driver s)) s Hs))
      as Hnew.
    cbn [DB set_driver] in Hnew.
    destruct (exec_statement stm args (DB s)) as [e t'] eqn:Hex.
    split; [exact Hnew | exact Logic.I].
Qed.

Lemma exec_stable_pending (l : list (statement * list value)) s :
  I s →
  I (set_DB (fold_left (λ t sa, (exec_statement sa.1 sa.2 t).2) l (DB s)) s).
Proof.
  revert s. induction l as [|[stm args] l IH]; intros s Hs; cbn [fold_left].
  - destruct s; exact Hs.
  - specialize (IH _ (Hexec stm args s Hs)). exact IH.
Qed.

Lemma hoare_Tx_Commit tx : hoare I (λ _, True) (Tx_Commit tx).
Proof.
  intros s Hs. unfold Tx_Commit. rewrite bind_run, driver_call_run.
  destruct (hd nil (driver s)) as [msg|]; cbn.
  - split; [by apply Hio | exact Logic.I].
  - split; [|exact Logic.I].
    apply (exec_stable_pending (pending tx) (set_driver (tl (driver s)) s)).
    by apply Hio.
Qed.

End stable_invariant.

Ltac hprim :=
  first [ apply hoare_DB_Begin | apply hoare_check | apply hoare_getSQL
        | apply hoare_DB_Exec | apply hoare_unless_unique
        | apply hoare_DB_Query | apply hoare_Tx_Commit | apply hoare_gets
        | apply hoare_log_Println | apply hoare_log_Printf ];
  assumption.

Tactic Notation "hbind" ident(x) :=
  lazymatch goal with
  | |- hoare _ _ (mbind _ _) => eapply hoare_bind; [hprim | intros x _]
  end.

Lemma hoare_scan_ids I (Hio : io_stable I) rows acc msg :
  hoare I (λ _, True)
    (for_fold rows acc (λ (did : Z) (row : list value),
       let '(did0, err0) := Scan_int row did in
       check msg err0 ≫= λ _ : (), mret did0)).
Proof.
  apply hoare_for_fold. intros did row.
  destruct (Scan_int row did) as [did0 err0].
  hbind u. by apply hoare_ret.
Qed.

(** Whatever the state, [Add] keeps an invariant that every statement
    and every log line keep, and it returns [nil] or ends the process
    with status 1. *)
Lemma Add_hoare I c e :
  io_stable I → exec_stable I → hoare I (λ err, err = nil) (Add c e).
Proof.
  intros Hio Hexec. unfold Add.
  hbind p. destruct p as [tx e0].
  hbind u. hbind stm. hbind e1. hbind u1. hbind stm1.
  hbind p. destruct p as [rows err].
  hbind u2.
  eapply hoare_bind; [by apply hoare_scan_ids | intros did _].
  hbind stm2. hbind e2. hbind u3. hbind stm3.
  hbind p. destruct p as [rows' err'].
  hbind u4.
  eapply hoare_bind; [by apply hoare_scan_ids | intros bid _].
  hbind stm4. hbind err1. hbind u5. hbind e3. hbind verbose.
  eapply hoare_bind.
  - destruct (0 <? verbose); [hprim | by apply hoare_ret].
  - intros _ _. by apply hoare_ret.
Qed.

Lemma Records_hoare I c req :
  io_stable I → hoare I (λ _, True) (Records c req).
Proof.
  intros Hio. unfold Records.
  hbind stm. hbind dbtype. cbv zeta.
  repeat match goal with
         | |- context [if ?b then _ else _] => destruct b
         end;
    (hbind verbose;
     eapply hoare_bind;
       [destruct (0 <? verbose); [hprim | by apply hoare_ret] | intros _ _];
     hbind p; destruct p as [rows [msg|]];
       [ hbind u; by apply hoare_ret
       | apply hoare_for_fold; try assumption; intros out row;
         destruct (Scan_entry row _) as [rec [msg|]];
         (eapply hoare_bind; [first [hprim | by apply hoare_ret]
                             | intros _ _; by apply hoare_ret]) ]).
Qed.

(** [Add] walked bind by bind, [getSQL] ending the process at the
    template [Hmiss] says is missing. *)
Ltac hwalk Hmiss :=
  repeat lazymatch goal with
  | H : False |- _ => destruct H
  | |- hoare _ _ (mbind _ (for_fold _ _ _)) =>
      eapply hoare_bind; [by apply hoare_scan_ids | intros ? _]
  | |- hoare _ _ (mbind _ (if _ then _ else _)) =>
      eapply hoare_bind;
        [ match goal with
          | |- context [if ?b then _ else _] => destruct b
          end; [hprim | by apply hoare_ret]
        | intros _ _ ]
  | |- hoare _ _ (mbind _ _) =>
      eapply hoare_bind;
        [ first [ solve [apply hoare_getSQL_missing;
                         [assumption | exact Hmiss]]
                | hprim ]
        | cbv beta; intros ? ? ]
  | |- hoare _ _ (match ?p with _ => _ end) => destruct p
  end.

Lemma Add_hoare_missing I c e key :
  key ∈ Add_templates →
  io_stable I → exec_stable I →
  (∀ s, I s → DBSQL s !! key = None) →
  hoare I (λ _, False) (Add c e).
Proof.
  intros Hkey Hio Hexec Hmiss. unfold Add_templates in Hkey.
  repeat (apply elem_of_cons in Hkey as [->|Hkey]);
    [..|by apply elem_of_nil in Hkey];
    unfold Add; cbv zeta; hwalk Hmiss.
Qed.

(** X7: [Records] never writes: whatever the state, the filter and the
    behaviour of the driver, it leaves the tables, the dialect and the
    templates as they were, and if it ends the process the status is 1. *)
Theorem Records_reads_only c req s :
  DB (Records c req s).2 = DB s ∧
  DBTYPE (Records c req s).2 = DBTYPE s ∧
  DBSQL (Records c req s).2 = DBSQL s ∧
  ∀ code, (Records c req s).1 = Exit code → code = 1.
Proof.
  destruct (Records_hoare
              (λ x, DB x = DB s ∧ DBTYPE x = DBTYPE s ∧ DBSQL x = DBSQL s)
              c req) with s as [(H1 & H2 & H3) Hout].
  - split; intros; assumption.
  - auto.
  - split; [exact H1|]. split; [exact H2|]. split; [exact H3|].
    intros code Hexit. rewrite Hexit in Hout. exact Hout.
Qed.

(** X8: when the template of the query is not loaded, [Records] logs
    that it is unable to load it and ends the process with status 1,
    before any call to the driver. *)
Theorem Records_missing_template c req s :
  DBSQL s !! "files_blocks_datasets" = None →
  Records c req s =
  (Exit 1,
   set_stderr (stderr s ++
     [Print [LSprintf "Unable to load %s SQL"
               [LString "files_blocks_datasets"]]]) s).
Proof.
  intros Hmiss. unfold Records, getSQL.
  rewrite !bind_run. cbn [gets]. rewrite Hmiss. reflexivity.
Qed.

(** X9: [Add] never returns an error: whatever the state and the
    behaviour of the driver, it returns [nil] or ends the process with
    status 1. *)
Theorem Add_returns_nil_or_exits c e s :
  (Add c e s).1 = Return nil ∨ (Add c e s).1 = Exit 1.
Proof.
  destruct (Add_hoare (λ _, True) c e) with s as [_ Hout].
  - split; auto.
  - intros ? ? ? ?. exact Logic.I.
  - exact Logic.I.
  - destruct (Add c e s).1 as [err|code]; [left | right]; congruence.
Qed.

(** X10: [Add] keeps the tables well formed, however it ends and
    whatever the driver reports on the way. *)
Theorem Add_keeps_tables_well_formed c e s :
  wf_tables (DB s) → wf_tables (DB (Add c e s).2).
Proof.
  intros Hwf.
  destruct (Add_hoare (λ x, wf_tables (DB x)) c e) with s as [Hinv _].
  - split; intros; assumption.
  - intros stm args x Hx. cbn [DB set_DB]. by apply exec_statement_wf.
  - exact Hwf.
  - exact Hinv.
Qed.

Lemma grows_refl t : grows t t.
Proof. unfold grows. done. Qed.

Lemma grows_trans t1 t2 t3 : grows t1 t2 → grows t2 t3 → grows t1 t3.
Proof.
  intros (H1 & H2 & H3) (H4 & H5 & H6).
  split_and!; etrans; eassumption.
Qed.

Lemma exec_statement_grows stm args t :
  grows t (exec_statement stm args t).2.
Proof.
  unfold exec_statement.
  repeat (case_match; try apply grows_refl); cbn [snd];
    unfold grows; cbn [DATASETS BLOCKS FILES];
    split_and!; (reflexivity || by apply prefix_app_r).
Qed.

Lemma catalog_entries_grows t t' x :
  grows t t' → x ∈ catalog_entries t → x ∈ catalog_entries t'.
Proof.
  intros ([kd Hd] & [kb Hb] & [kf Hf]). unfold catalog_entries.
  rewrite Hd, Hb, Hf.
  intros (f & Hx & Hin)%list_elem_of_bind.
  apply list_elem_of_bind in Hx as (b & Hx & [Hbid Hbin]%list_elem_of_filter).
  apply list_elem_of_bind in Hx as (d & Hx & [Hdid Hdin]%list_elem_of_filter).
  apply list_elem_of_bind. exists f. split; [|apply elem_of_app; by left].
  apply list_elem_of_bind. exists b.
  split; [|apply list_elem_of_filter; split;
           [exact Hbid | apply elem_of_app; by left]].
  apply list_elem_of_bind. exists d.
  split; [exact Hx|]. apply list_elem_of_filter.
  split; [exact Hdid | apply elem_of_app; by left].
Qed.

(** X11: [Add] never removes or alters what the catalog holds: every
    entry of the catalog before the call is an entry after it, however
    the call ends. *)
Theorem Add_keeps_entries c e s x :
  x ∈ catalog_entries (DB s) → x ∈ catalog_entries (DB (Add c e s).2).
Proof.
  intros Hx.
  destruct (Add_hoare (λ y, grows (DB s) (DB y)) c e) with s as [Hinv _].
  - split; intros; assumption.
  - intros stm args y Hy. cbn [DB set_DB].
    eapply grows_trans; [exact Hy | apply exec_statement_grows].
  - apply grows_refl.
  - exact (catalog_entries_grows _ _ x Hinv Hx).
Qed.

(** X12: when one of the five templates [Add] uses is not loaded, [Add]
    never returns: it ends the process with status 1, whatever the
    driver reports. *)
Theorem Add_missing_template_exits c e s key :
  key ∈ Add_templates → DBSQL s !! key = None →
  (Add c e s).1 = Exit 1.
Proof.
  intros Hkey Hmiss.
  destruct (Add_hoare_missing (λ x, DBSQL x !! key = None) c e key Hkey)
    with s as [_ Hout].
  - split; intros; assumption.
  - intros stm args x Hx. exact Hx.
  - auto.
  - exact Hmiss.
  - destruct (Add c e s).1 as [err|code]; [destruct Hout | by subst].
Qed.

Lemma added_existing e t r :
  wf_tables t → r ∈ catalog_entries t → same_key e r → added e t = t.
Proof.
  intros Hwf Hr (HD & HB & HL). unfold catalog_entries in Hr.
  apply list_elem_of_bind in Hr as (f & Hr & Hf).
  apply list_elem_of_bind in Hr
    as ([bi bn] & Hr & [Hbi Hbin]%list_elem_of_filter).
  apply list_elem_of_bind in Hr
    as ([di dn] & Hr & [Hdi Hdin]%list_elem_of_filter).
  apply list_elem_of_singleton in Hr. subst r.
  cbn in HD, HB, HL, Hbi, Hdi. subst bn dn.
  assert (Dataset e ∈ names (DATASETS t)) as Hdn
    by (apply list_elem_of_In, in_map_iff; exists (di, Dataset e);
        split; [reflexivity | by apply list_elem_of_In]).
  assert (Block e ∈ names (BLOCKS t)) as Hbn
    by (apply list_elem_of_In, in_map_iff; exists (bi, Block e);
        split; [reflexivity | by apply list_elem_of_In]).
  unfold added. rewrite (insert_datasets_again _ _ Hdn).
  rewrite (insert_blocks_again _ _ Hbn).
  apply insert_files_again.
  rewrite (unique_name (BLOCKS t) (id_of (Block e) (BLOCKS t)) bi (Block e));
    [|apply Hwf | apply id_of_spec; [apply Hwf | exact Hbn] | exact Hbin].
  rewrite (unique_name (DATASETS t) (id_of (Dataset e) (DATASETS t)) di
             (Dataset e));
    [|apply Hwf | apply id_of_spec; [apply Hwf | exact Hdn] | exact Hdin].
  rewrite <- HL, Hbi, Hdi.
  apply list_elem_of_In, in_map_iff. exists f.
  split; [reflexivity | by apply list_elem_of_In].
Qed.

(** X13: [Add] does not overwrite.  When the catalog already has an
    entry for the dataset, block and lfn of [e], [Add] returns [nil] and
    leaves every table as it was, also when [e] carries another pfn,
    size or hash. *)
Theorem Add_existing_entry_kept c e s r :
  wf_tables (DB s) → DBSQL s = loaded_sql → driver s = [] →
  r ∈ catalog_entries (DB s) → same_key e r →
  ∃ s', Add c e s = (Return nil, s') ∧ DB s' = DB s.
Proof.
  destruct s as [t ty sqlmap v d l]. cbn [DB DBSQL driver].
  intros Hwf -> -> Hr Hkey.
  destruct (Add_run c e t ty v l) as [l1 H1].
  rewrite H1. eexists. split; [reflexivity|].
  cbn [DB]. exact (added_existing e t r Hwf Hr Hkey).
Qed.

Lemma added_new_lfn e t :
  wf_tables t → Lfn e ∉ map f_lfn (FILES t) →
  ∃ did bid fid,
    wf_tables (added e t) ∧
    (did, Dataset e) ∈ DATASETS (added e t) ∧
    (bid, Block e) ∈ BLOCKS (added e t) ∧
    FILES (added e t) =
      FILES t ++ [{| f_id := fid; f_lfn := Lfn e; f_pfn := Pfn e;
                     f_blockid := bid; f_datasetid := did;
                     f_bytes := Bytes e; f_hash := Hash e |}].
Proof.
  intros Hwf Hnew.
  assert (Hwf' : wf_tables (added e t)).
  { destruct (added_tables e t Hwf) as (? & ? & ? & _). assumption. }
  revert Hwf'. unfold added.
  set (t1 := (exec_statement (sql insert_datasets)
                [VString (Dataset e)] t).2).
  set (did := id_of (Dataset e) (DATASETS t1)).
  set (t2 := (exec_statement (sql insert_blocks) [VString (Block e)] t1).2).
  set (bid := id_of (Block e) (BLOCKS t2)).
  cbv zeta. intros Hwf'.
  assert (Hwf1 : wf_tables t1) by (by apply exec_statement_wf).
  assert (Hwf2 : wf_tables t2) by (by apply exec_statement_wf).
  destruct (insert_datasets_tables (Dataset e) t) as (Hd1 & _ & Hf1).
  destruct (insert_blocks_tables (Block e) t1) as (Hb2 & Hd2 & Hf2).
  fold t1 in Hd1, Hf1. fold t2 in Hb2, Hd2, Hf2.
  assert ((Lfn e, bid, did) ∉ map file_key (FILES t2)) as Hkey.
  { rewrite Hf2, Hf1. intros (f & Hk & Hin)%list_elem_of_In%in_map_iff.
    apply Hnew. apply list_elem_of_In, in_map_iff. exists f.
    split; [|exact Hin]. unfold file_key in Hk. congruence. }
  exists did, bid, (next_id (map f_id (FILES t2))).
  split; [exact Hwf'|].
  unfold exec_statement in *. cbn [sql tmpl tail] in *.
  rewrite bool_decide_eq_false_2 in * by exact Hkey.
  cbn [snd DATASETS BLOCKS FILES]. rewrite Hd2, Hf2, Hf1.
  split; [|split; [|reflexivity]].
  - apply id_of_spec; [apply Hwf1 | exact Hd1].
  - apply id_of_spec; [apply Hwf2 | exact Hb2].
Qed.

(** X14: an entry whose lfn is not empty and not yet in the files
    table can be read back: after [Add], [Records] with the dataset, the
    block and the lfn of the entry as filter returns the entry itself and
    nothing else, and [Files] returns its lfn. *)
Theorem Add_then_Records_new_lfn c e s :
  wf_tables (DB s) → DBSQL s = loaded_sql → driver s = [] →
  Lfn e ≠ "" → Lfn e ∉ map f_lfn (FILES (DB s)) →
  ∃ s1 s2,
    Add c e s = (Return nil, s1) ∧
    Records c (request_for e) s1 = (Return (Slice [e]), s2) ∧
    Files c (Dataset e) (Block e) (Lfn e) s1
      = (Return (Slice [Lfn e]), s2).
Proof.
  destruct s as [t ty sqlmap v d l]. cbn [DB DBSQL driver].
  intros Hwf -> -> Hne Hnew.
  destruct (Add_run c e t ty v l) as [l1 H1]. rewrite H1.
  match goal with
  | |- ∃ s1 s2, (_, ?s) = _ ∧ _ =>
      destruct (Records_matching c (request_for e) s) as (s2 & H2 & _);
        [reflexivity | reflexivity | exists s, s2; split; [reflexivity|]]
  end.
  1:{ assert (filter (matches (request_for e))
                     (catalog_entries (added e t)) = [e]) as Hread.
      { destruct (added_new_lfn e t Hwf Hnew)
          as (did & bid & fid & Hwf' & Hd & Hb & Hf).
        unfold catalog_entries. rewrite Hf, bind_app, filter_app.
        rewrite filter_none.
        - cbn [mbind list_bind app f_blockid f_datasetid f_lfn f_pfn
                 f_bytes f_hash].
          change (λ b : Z * string, b.1 = bid)
            with (λ b : Z * string, b.1 = (bid, Block e).1).
          rewrite (filter_unique fst _ (bid, Block e))
            by (apply Hwf' || exact Hb).
          change (λ d : Z * string, d.1 = did)
            with (λ d : Z * string, d.1 = (did, Dataset e).1).
          cbn [mbind list_bind app].
          rewrite (filter_unique fst _ (did, Dataset e))
            by (apply Hwf' || exact Hd).
          cbn [mbind list_bind app snd]. rewrite ?app_nil_r.
          rewrite filter_cons, decide_True, filter_nil;
            [destruct e; reflexivity|].
          unfold matches, request_for. cbn. auto.
        - intros x Hx (Hm & _).
          apply list_elem_of_bind in Hx as (f & Hx & Hfin).
          apply list_elem_of_bind in Hx as (b & Hx & _).
          apply list_elem_of_bind in Hx as (d0 & Hx & _).
          apply list_elem_of_singleton in Hx. subst x.
          cbn in Hm. destruct Hm as [Hm|Hm]; [done|].
          apply Hnew. rewrite <- Hm.
          apply list_elem_of_In, in_map, list_elem_of_In, Hfin. }
      cbn [DB] in H2. rewrite Hread in H2. split; [exact H2|].
      unfold Files. cbv zeta. rewrite bind_run.
      change {| TransferRequest.File := Lfn e;
                TransferRequest.Block := Block e;
                TransferRequest.Dataset := Dataset e |}
        with (request_for e).
      rewrite H2. reflexivity. }
Qed.

(** X20: when the transaction cannot be begun, [Add] logs the failure
    and ends the process with status 1 before it looks at a template or
    touches a table. *)
Theorem Add_begin_failure_exits c e s msg rest :
  driver s = Some msg :: rest →
  Add c e s =
  (Exit 1,
   set_stderr (stderr s ++
     [Printf "ERROR %s, %v\n"
        [LString "Unable to setup transaction"; LError (Some msg)]])
     (set_driver rest s)).
Proof.
  intros Hd. unfold Add. rewrite bind_run, DB_Begin_run, Hd.
  reflexivity.
Qed.

(** X21: a failure of the dataset insert that is no uniqueness conflict
    is fatal: [Add] logs it and ends the process with status 1, and no
    table has changed. *)
Theorem Add_dataset_insert_failure_is_fatal c e s stm msg rest :
  DBSQL s !! "insert_datasets" = Some stm →
  driver s = nil :: Some msg :: rest →
  strings_Contains msg "UNIQUE" = false →
  Add c e s =
  (Exit 1,
   set_stderr (stderr s ++
     [Printf "ERROR %s, %v\n"
        [LString "Unable to insert into datasets table";
         LError (Some msg)]])
     (set_driver rest s)).
Proof.
  intros Hsql Hd Hmsg. unfold Add.
  rewrite bind_run, DB_Begin_run, Hd. cbn [hd tl check nil].
  rewrite bind_run. cbn [mret go_M_ret ret].
  rewrite bind_run, (getSQL_run _ stm) by exact Hsql.
  rewrite bind_run, (DB_Exec_failure_run _ _ _ msg) by reflexivity.
  rewrite bind_run. unfold unless_unique. rewrite Hmsg.
  reflexivity.
Qed.

End catalog_runs.

(** ** Agent registration: every run *)

Section mesh_runs.

Import go server server_spec server_logic.
Local Open Scope Z_scope.

Lemma keeps_ret {A} (I : state → Prop) (a : A) : keeps I (mret a).
Proof. intros s Hs. exact Hs. Qed.

Lemma keeps_bind {A B} (I : state → Prop) (m : M state A)
    (k : A → M state B) :
  keeps I m → (∀ a, keeps I (k a)) → keeps I (m ≫= k).
Proof.
  intros Hm Hk s Hs. rewrite bind_run. specialize (Hm s Hs).
  destruct (m s) as [[a|c] s1]; cbn in *; [by apply Hk | exact Hm].
Qed.

Lemma keeps_gets {A} (I : state → Prop) (f : state → A) : keeps I (gets f).
Proof. intros s Hs. exact Hs. Qed.

Lemma keeps_modify (I : state → Prop) (f : state → state) :
  (∀ s, I s → I (f s)) → keeps I (modify f).
Proof. intros Hf s Hs. exact (Hf s Hs). Qed.

Lemma keeps_for_range {A} (I : state → Prop) (l : list A)
    (body : A → M state unit) :
  (∀ x, keeps I (body x)) → keeps I (for_range l body).
Proof.
  intros Hbody. induction l as [|x l IH]; cbn [for_range].
  - apply keeps_ret.
  - change (bind ?m ?k) with (m ≫= k). apply keeps_bind; [apply Hbody|].
    intros _. exact IH.
Qed.

Lemma keeps_log_Fatal {A} (I : state → Prop) args :
  identity_only I → keeps I (log_Fatal (A:=A) args).
Proof. intros HI s Hs. by apply HI. Qed.

Lemma keeps_register (I : state → Prop) W peer alias agent :
  identity_only I → keeps I (register W peer alias agent).
Proof.
  intros HI. unfold register.
  apply keeps_bind; [apply keeps_modify; intros; by apply HI|]. intros _.
  apply keeps_bind; [apply keeps_gets|]. intros myself.
  apply keeps_bind; [apply keeps_gets|]. intros al.
  destruct (json_Marshal W _) as [data err].
  apply keeps_bind.
  { destruct err; [apply keeps_modify; intros; by apply HI | apply keeps_ret]. }
  intros _. apply keeps_bind.
  { unfold utils_FetchResponse. apply keeps_bind; [|intros; apply keeps_ret].
    apply keeps_modify; intros; by apply HI. }
  intros resp. destruct (negb _); apply keeps_ret.
Qed.

(** Registration never changes what only depends on the agent's own
    url and alias. *)
Lemma keeps_registerAtAgents (I : state → Prop) W aName :
  identity_only I → keeps I (registerAtAgents W aName).
Proof.
  intros HI. unfold registerAtAgents.
  apply keeps_bind; [apply keeps_gets|]. intros alias.
  apply keeps_bind; [apply keeps_gets|]. intros myself.
  apply keeps_bind; [apply keeps_gets|]. intros agents.
  apply keeps_bind.
  { destruct (agents !! alias); [by apply keeps_log_Fatal | apply keeps_ret]. }
  intros _. apply keeps_bind; [apply keeps_modify; intros; by apply HI|].
  intros _. apply keeps_bind.
  { destruct (_ && _); [|apply keeps_ret].
    apply keeps_bind; [by apply keeps_register|]. intros err.
    apply keeps_bind.
    { destruct err; [by apply keeps_log_Fatal | apply keeps_ret]. }
    intros _. apply keeps_bind.
    { unfold utils_FetchResponse. apply keeps_bind; [|intros; apply keeps_ret].
      apply keeps_modify; intros; by apply HI. }
    intros resp. destruct (json_Unmarshal W _) as [remoteAgents [e|]];
      [apply keeps_ret|].
    apply keeps_for_range. intros kv.
    apply keeps_bind; [apply keeps_gets|]. intros agents'.
    destruct (agents' !! kv.1); [apply keeps_ret|].
    apply keeps_modify; intros; by apply HI. }
  intros _. apply keeps_bind; [apply keeps_gets|]. intros agents'.
  apply keeps_for_range. intros [alias' agent].
  destruct (_ || _); [apply keeps_ret|].
  apply keeps_bind; [by apply keeps_register | intros; apply keeps_ret].
Qed.

(** X15: whatever alias and url it is called with, [register] sends one
    request, to the registration end-point of the peer, with the agent's
    own url and alias as body; it leaves the globals as they are, and it
    returns [nil] exactly when the answer has status 200 and carries no
    error. *)
Theorem register_sends_own_identity W peer alias agent s :
  ∃ s', register W peer alias agent s
        = (Return (register_result W s peer), s')
      ∧ same_globals s s'
      ∧ sent s' = sent s ++ [(peer +:+ "/register", announcement W s)]
      ∧ (register_result W s peer = nil ↔
         let resp := FetchResponse W (peer +:+ "/register")
                                   (announcement W s) in
         utils.StatusCode resp = 200 ∧ utils.Error resp = nil).
Proof.
  destruct (register_run W peer alias agent s) as (s' & Hrun & Hg & Hs).
  exists s'. split; [exact Hrun|]. split; [exact Hg|]. split; [exact Hs|].
  unfold register_result. cbv zeta.
  destruct (Z.eqb_spec
              (utils.StatusCode
                 (FetchResponse W (peer +:+ "/register") (announcement W s)))
              200) as [Heq|Hne]; cbn [negb].
  - split; [auto | intros [_ ?]; assumption].
  - split; [discriminate | intros [? _]; contradiction].
Qed.

(** X16: when the bootstrap peer does not accept the registration (a
    status other than 200, or a transport error), [registerAtAgents]
    ends the process with status 1 after that one request: the peer's
    table is not asked for and nobody else is contacted. *)
Theorem bootstrap_refusal_is_fatal W aName s msg :
  _agents s !! _alias s = None → aName ≠ "" →
  register_result W s aName = Some msg →
  ∃ s', registerAtAgents W aName s = (Exit 1, s') ∧
        _agents s' = <[_alias s := _myself s]> (_agents s) ∧
        sent s' = sent s ++ [(aName +:+ "/register", announcement W s)].
Proof.
  intros Hfree Hne Hreg.
  pose proof (registerAtAgents_run W aName s Hfree) as Hpaths.
  cbv zeta in Hpaths. rewrite decide_False, Hreg in Hpaths by exact Hne.
  exact Hpaths.
Qed.

(** X17: a table of the bootstrap peer that does not decode is passed
    over in silence: the process goes on with its local table and
    announces itself to the peers it knew before. *)
Theorem undecodable_table_is_ignored W aName s partial msg :
  _agents s !! _alias s = None → aName ≠ "" →
  register_result W s aName = nil →
  json_Unmarshal W (utils.Data (FetchResponse W (aName +:+ "/agents") ""))
    = (partial, Some msg) →
  let local := <[_alias s := _myself s]> (_agents s) in
  ∃ s', registerAtAgents W aName s = (Return tt, s') ∧
        _agents s' = local ∧
        sent s' = sent s
          ++ [(aName +:+ "/register", announcement W s);
              (aName +:+ "/agents", "")]
          ++ map (λ aa : string * string,
                    (aa.2 +:+ "/register", announcement W s))
                 (filter (other_peer aName (_alias s)) (range W local)).
Proof.
  intros Hfree Hne Hreg Hjson local.
  pose proof (registerAtAgents_run W aName s Hfree) as Hpaths.
  cbv zeta in Hpaths. rewrite decide_False in Hpaths by exact Hne.
  rewrite Hreg, Hjson in Hpaths. exact Hpaths.
Qed.

(** X18: without a bootstrap address no peer is asked for its table:
    the agent enters itself and announces itself to the entries it
    already has, those with an empty url left out; with an empty table
    it sends nothing at all and ends as a mesh of one. *)
Theorem registerAtAgents_without_bootstrap W s :
  _agents s !! _alias s = None →
  let local := <[_alias s := _myself s]> (_agents s) in
  ∃ s', registerAtAgents W "" s = (Return tt, s') ∧
        _agents s' = local ∧
        sent s' = sent s
          ++ map (λ aa : string * string,
                    (aa.2 +:+ "/register", announcement W s))
                 (filter (other_peer "" (_alias s)) (range W local)) ∧
        (_agents s = ∅ → range_sound W →
         _agents s' = {[ _alias s := _myself s ]} ∧ sent s' = sent s).
Proof.
  intros Hfree local.
  pose proof (registerAtAgents_run W "" s Hfree) as Hpaths.
  cbv zeta in Hpaths. rewrite decide_True in Hpaths by reflexivity.
  destruct Hpaths as (s' & Hrun & Hag & Hsent).
  exists s'. split; [exact Hrun|]. split; [exact Hag|].
  split; [exact Hsent|].
  intros Hempty Hrange. rewrite Hag, Hsent. subst local.
  rewrite Hempty, insert_empty. split; [reflexivity|].
  assert (filter (other_peer "" (_alias s))
                 (range W {[_alias s := _myself s]}) = []) as ->.
  { apply filter_none. intros [a u] Hin [_ Ha].
    rewrite (Hrange _), map_to_list_singleton in Hin.
    apply list_elem_of_singleton in Hin. cbn in Ha. congruence. }
  cbn [map]. apply app_nil_r.
Qed.

(** X19: [registerAtAgents] can run once per process: after a call that
    returned, any further call finds the agent's alias in the table and
    ends the process with status 1, with the table as it is and without
    sending anything. *)
Theorem registerAtAgents_second_call_exits W aName aName' s s1 :
  registerAtAgents W aName s = (Return tt, s1) →
  ∃ s2, registerAtAgents W aName' s1 = (Exit 1, s2) ∧
        _agents s2 = _agents s1 ∧ sent s2 = sent s1.
Proof.
  intros Hrun.
  destruct (_agents s !! _alias s) as [url|] eqn:Hlook.
  - destruct (registerAtAgents_taken W aName s url Hlook) as [l Hexit].
    congruence.
  - assert (_alias s1 = _alias s) as Halias.
    { pose proof (keeps_registerAtAgents (λ x, _alias x = _alias s) W aName)
        as Hk.
      specialize (Hk ltac:(split; intros; assumption) s eq_refl).
      by rewrite Hrun in Hk. }
    assert (<[_alias s := _myself s]> (_agents s) ⊆ _agents s1) as Hsub.
    { pose proof (registerAtAgents_run W aName s Hlook) as Hpaths.
      cbv zeta in Hpaths. destruct (decide (aName = "")).
      - destruct Hpaths as (s' & H1 & Hag & _).
        rewrite Hrun in H1. injection H1 as <-. by rewrite Hag.
      - destruct (register_result W s aName).
        + destruct Hpaths as (s' & H1 & _). congruence.
        + destruct Hpaths as (s' & H1 & Hag & _).
          rewrite Hrun in H1. injection H1 as <-. rewrite Hag.
          destruct (json_Unmarshal W _).2; [done|].
          apply map_union_subseteq_l. }
    assert (_agents s1 !! _alias s1 = Some (_myself s)) as Htaken.
    { rewrite Halias. eapply lookup_weaken; [|exact Hsub].
      apply lookup_insert_eq. }
    destruct (registerAtAgents_taken W aName' s1 _ Htaken) as [l ->].
    eexists. split; [reflexivity|]. split; reflexivity.
Qed.

End mesh_runs.

(** ** The further properties at concrete inputs *)

Section more_witnesses.

Import inputs more_inputs.
Local Open Scope Z_scope.

Lemma sites_fit : Z.of_nat (length sites) < 2 ^ 63.
Proof. reflexivity. Qed.

Lemma InList_elem_of_FindInList_witness :
  (utils.InList "T3_C" sites = true ↔ "T3_C" ∈ sites) ∧
  utils.InList "T3_C" sites = utils.FindInList "T3_C" sites.
Proof. apply (InList_elem_of_FindInList "T3_C" sites). reflexivity. Defined.

Lemma List2Set_NoDup_same_elements_witness :
  NoDup (utils.List2Set sites) ∧ ∀ x, x ∈ utils.List2Set sites ↔ x ∈ sites.
Proof. apply (List2Set_NoDup_same_elements sites). reflexivity. Defined.

Lemma List2Set_first_occurrences_witness :
  utils.List2Set ("T2_B" :: ["T1_A"; "T2_B"; "T3_C"; "T1_A"]) =
  "T2_B" :: utils.List2Set (filter (λ y, y ≠ "T2_B")
                              ["T1_A"; "T2_B"; "T3_C"; "T1_A"]).
Proof.
  apply (List2Set_first_occurrences "T2_B" ["T1_A"; "T2_B"; "T3_C"; "T1_A"]).
  reflexivity.
Defined.


Lemma MapKeys_keys_witness :
  utils.MapKeys map_to_list sizes = (map_to_list sizes).*1 ∧
  NoDup (utils.MapKeys map_to_list sizes) ∧
  length (utils.MapKeys map_to_list sizes) = size sizes ∧
  ∀ k, k ∈ utils.MapKeys map_to_list sizes ↔ is_Some (sizes !! k).
Proof. apply (MapKeys_keys map_to_list sizes). reflexivity. Defined.

Lemma Records_missing_template_witness :
  core.Records tfc by_block
    (process_without "files_blocks_datasets" two_files) =
  (go.Exit 1,
   core.set_stderr
     [core.Print [core.LSprintf "Unable to load %s SQL"
                    [core.LString "files_blocks_datasets"]]]
     (process_without "files_blocks_datasets" two_files)).
Proof.
  apply (Records_missing_template tfc by_block
           (process_without "files_blocks_datasets" two_files)).
  reflexivity.
Defined.

Lemma two_files_wf : core_spec.wf_tables two_files.
Proof.
  destruct (added_tables file_a no_tables no_tables_wf)
    as (? & ? & Hwf & _).
  destruct (added_tables file_b _ Hwf) as (? & ? & Hwf' & _).
  exact Hwf'.
Qed.

Lemma Add_keeps_tables_well_formed_witness :
  core_spec.wf_tables
    (core.DB (core.Add tfc file_c
                (process two_files [go.nil; go.nil; go.nil;
                                    Some "database is locked"])).2).
Proof.
  apply (Add_keeps_tables_well_formed tfc file_c
           (process two_files [go.nil; go.nil; go.nil;
                               Some "database is locked"])).
  exact two_files_wf.
Defined.

Lemma Add_keeps_entries_witness :
  file_b ∈ core_spec.catalog_entries
    (core.DB (core.Add tfc file_c
                (process two_files [go.nil; go.nil; go.nil;
                                    Some "database is locked"])).2).
Proof.
  apply (Add_keeps_entries tfc file_c
           (process two_files [go.nil; go.nil; go.nil;
                               Some "database is locked"]) file_b).
  cbn [core.DB process]. rewrite two_files_entries. right. left.
Defined.

Lemma Add_missing_template_exits_witness :
  (core.Add tfc file_c (process_without "id_blocks" two_files)).1
  = go.Exit 1.
Proof.
  apply (Add_missing_template_exits tfc file_c
           (process_without "id_blocks" two_files) "id_blocks").
  - right. right. right. left.
  - reflexivity.
Defined.

Lemma Add_existing_entry_kept_witness :
  ∃ s', core.Add tfc file_a_moved (process two_files [])
        = (go.Return go.nil, s') ∧
        core.DB s' = two_files.
Proof.
  apply (Add_existing_entry_kept tfc file_a_moved (process two_files [])
           file_a).
  - exact two_files_wf.
  - reflexivity.
  - reflexivity.
  - cbn [core.DB process]. rewrite two_files_entries. left.
  - repeat split.
Defined.

Lemma Add_then_Records_new_lfn_witness :
  ∃ s1 s2,
    core.Add tfc file_c (process two_files []) = (go.Return go.nil, s1) ∧
    core.Records tfc (core_logic.request_for file_c) s1
      = (go.Return (go.Slice [file_c]), s2) ∧
    core.Files tfc "/x/y/z" "/a/b/c#1" "/store/c.root" s1
      = (go.Return (go.Slice ["/store/c.root"]), s2).
Proof.
  apply (Add_then_Records_new_lfn tfc file_c (process two_files [])).
  - exact two_files_wf.
  - reflexivity.
  - reflexivity.
  - discriminate.
  - assert (map core.f_lfn (core.FILES (core.DB (process two_files [])))
            = ["/store/a.root"; "/store/b.root"]) as ->
      by (vm_compute; reflexivity).
    intros Hin.
    repeat (apply elem_of_cons in Hin as [Hin|Hin]; [discriminate|]).
    by apply elem_of_nil in Hin.
Defined.

Lemma Add_begin_failure_exits_witness :
  (core.Add tfc file_c (process two_files [Some "unable to open database"])).1
  = go.Exit 1.
Proof.
  rewrite (Add_begin_failure_exits tfc file_c
             (process two_files [Some "unable to open database"])
             "unable to open database" []); reflexivity.
Defined.

Lemma Add_dataset_insert_failure_is_fatal_witness :
  ∃ s', core.Add tfc file_c
          (process two_files [go.nil; Some "database is locked"])
        = (go.Exit 1, s') ∧ core.DB s' = two_files.
Proof.
  eexists. split.
  - apply (Add_dataset_insert_failure_is_fatal tfc file_c
             (process two_files [go.nil; Some "database is locked"])
             (core_spec.sql core.insert_datasets) "database is locked" []);
      reflexivity.
  - reflexivity.
Defined.

Lemma bootstrap_refusal_is_fatal_witness :
  ∃ s', server.registerAtAgents net_refusing "http://a" (agent_b ∅)
        = (go.Exit 1, s') ∧
        server._agents s' = {["B" := "http://b"]} ∧
        server.sent s' = [("http://a/register", "{http://b,B}")].
Proof.
  destruct (bootstrap_refusal_is_fatal net_refusing "http://a" (agent_b ∅)
              "Response 500 Internal Server Error, error=no")
    as (s' & Hrun & Hag & Hsent).
  - reflexivity.
  - discriminate.
  - reflexivity.
  - exists s'. split; [exact Hrun|]. split; [exact Hag | exact Hsent].
Defined.

Lemma undecodable_table_is_ignored_witness :
  ∃ s', server.registerAtAgents net_garbled "http://a"
          (agent_b {["C" := "http://c"]})
        = (go.Return tt, s') ∧
        server._agents s' = <["B" := "http://b"]> {["C" := "http://c"]} ∧
        server.sent s' =
          [("http://a/register", "{http://b,B}"); ("http://a/agents", "");
           ("http://c/register", "{http://b,B}")].
Proof.
  destruct (undecodable_table_is_ignored net_garbled "http://a"
              (agent_b {["C" := "http://c"]}) ∅
              "invalid character 'a' looking for beginning of value")
    as (s' & Hrun & Hag & Hsent).
  - reflexivity.
  - discriminate.
  - reflexivity.
  - reflexivity.
  - exists s'. split; [exact Hrun|]. split; [exact Hag|].
    rewrite Hsent. vm_compute. reflexivity.
Defined.

Lemma registerAtAgents_without_bootstrap_witness :
  ∃ s', server.registerAtAgents net "" (agent_b ∅) = (go.Return tt, s') ∧
        server._agents s' = {["B" := "http://b"]} ∧
        server.sent s' = [].
Proof.
  destruct (registerAtAgents_without_bootstrap net (agent_b ∅))
    as (s' & Hrun & _ & _ & Hone).
  - reflexivity.
  - destruct Hone as [Hag Hsent].
    + reflexivity.
    + intros m. reflexivity.
    + exists s'. split; [exact Hrun|]. split; [exact Hag | exact Hsent].
Defined.

Lemma registerAtAgents_second_call_exits_witness :
  ∃ s2, server.registerAtAgents net "http://c"
          (server.registerAtAgents net "http://a" (agent_b ∅)).2
        = (go.Exit 1, s2).
Proof.
  destruct (registerAtAgents_second_call_exits net "http://a" "http://c"
              (agent_b ∅)
              (server.registerAtAgents net "http://a" (agent_b ∅)).2)
    as (s2 & Hrun & _).
  - vm_compute. reflexivity.
  - exists s2. exact Hrun.
Defined.

End more_witnesses.
